(** * hydra-cli: the command dispatcher and its registry queries

    A shallow embedding of [hydra-cli.js].  The program is one class,
    [Program], whose fields ([configData], [redisdb]) are threaded here as
    explicit state; every call that leaves the process (the redis client, the
    hydra library, the file system, the console) is recorded as an [event] of
    a trace, and the answers of these collaborators are read from a [World].  *)

From Stdlib Require Import String Ascii List ZArith NArith Bool Lia
  DecimalString Sorted Permutation.
Import ListNotations.
#[local] Set Warnings "-register-all".
Open Scope list_scope.
Open Scope string_scope.

(** ** JavaScript values *)

(** The values the handlers manipulate: what [JSON.parse] returns, plus
    [undefined].  An object keeps its own properties in creation order; the
    order in which they are enumerated is computed by [enumerate] below.
    Numbers are only passed through by the program; integers stand for them,
    printed in plain decimal as JavaScript does below [10^21]. *)
Inductive value : Type :=
| JUndefined
| JNull
| JBool (b : bool)
| JNumber (n : Z)
| JString (s : string)
| JArray (items : list value)
| JObject (props : list (string * value)).

(** Errors that travel as exceptions, rejections or callback errors.
    [TypeError] and [SyntaxError] are raised by the language itself,
    [HostError] by a collaborator (redis, hydra, the file loader). *)
Inductive error : Type :=
| TypeError
| SyntaxError
| HostError (message : string).

(** Result of a collaborator's callback: [(err, result)]. *)
Inductive reply (A : Type) : Type :=
| Failed (message : string)
| Replied (result : A).
Arguments Failed {A} message.
Arguments Replied {A} result.

(** *** Characters and strings *)

Definition dquote : ascii := "034"%char.
Definition backslash : ascii := "092"%char.
Definition newline : string := String "010"%char EmptyString.
Definition str (c : ascii) : string := String c EmptyString.

(** [hay.indexOf(needle)]: position of the first occurrence, [-1] if none.
    The program only compares the result with [-1]. *)
Fixpoint indexOf_from (pos : Z) (needle hay : string) {struct hay} : Z :=
  if prefix needle hay then pos
  else match hay with
       | EmptyString => (-1)%Z
       | String _ rest => indexOf_from (pos + 1) needle rest
       end.

Definition indexOf (hay needle : string) : Z := indexOf_from 0 needle hay.

(** [s.split(sep)] for a one-character separator. *)
Fixpoint split (sep : ascii) (s : string) : list string :=
  match s with
  | EmptyString => [EmptyString]
  | String c r =>
      if Ascii.eqb c sep then EmptyString :: split sep r
      else match split sep r with
           | [] => [str c]
           | seg :: segs => String c seg :: segs
           end
  end.

(** A template literal prints an absent array element as [undefined]. *)
Definition template (x : option string) : string :=
  match x with
  | Some s => s
  | None => "undefined"
  end.

(** *** Own properties of an object *)

Fixpoint obj_lookup {A : Type} (k : string) (props : list (string * A))
  : option A :=
  match props with
  | [] => None
  | (k', v) :: rest => if String.eqb k k' then Some v else obj_lookup k rest
  end.

Fixpoint obj_replace {A : Type} (k : string) (v : A)
  (props : list (string * A)) : list (string * A) :=
  match props with
  | [] => []
  | (k', v') :: rest =>
      if String.eqb k k' then (k', v) :: rest
      else (k', v') :: obj_replace k v rest
  end.

(** [obj[k] = v] on a plain object: an existing own property is overwritten
    in place, a new one is created last.  The name [__proto__] is special: on
    an object without such an own property the assignment reaches the
    accessor of [Object.prototype] and creates no own property. *)
Definition obj_assign {A : Type} (k : string) (v : A)
  (props : list (string * A)) : list (string * A) :=
  match obj_lookup k props with
  | Some _ => obj_replace k v props
  | None =>
      if String.eqb k "__proto__" then props else (props ++ [(k, v)])%list
  end.

(** Array indices: the canonical decimal strings below [2^32 - 1]. *)
Definition digit_of (c : ascii) : option N :=
  let n := N_of_ascii c in
  if ((48 <=? n) && (n <=? 57))%N then Some (n - 48)%N else None.

Fixpoint digits_value (acc : N) (s : string) : option N :=
  match s with
  | EmptyString => Some acc
  | String c r =>
      match digit_of c with
      | Some d => digits_value (10 * acc + d)%N r
      | None => None
      end
  end.

Definition array_index (s : string) : option N :=
  match s with
  | EmptyString => None
  | String c r =>
      if Ascii.eqb c "0"%char
      then match r with EmptyString => Some 0%N | _ => None end
      else match digits_value 0 s with
           | Some n => if (n <? 4294967295)%N then Some n else None
           | None => None
           end
  end.

Definition is_index (s : string) : bool :=
  match array_index s with Some _ => true | None => false end.

Definition index_value (s : string) : N :=
  match array_index s with Some n => n | None => 0%N end.

Fixpoint insert_by_index {A : Type} (p : string * A)
  (sorted : list (string * A)) : list (string * A) :=
  match sorted with
  | [] => [p]
  | q :: rest =>
      if (index_value (fst p) <=? index_value (fst q))%N then p :: q :: rest
      else q :: insert_by_index p rest
  end.

Fixpoint sort_by_index {A : Type} (props : list (string * A))
  : list (string * A) :=
  match props with
  | [] => []
  | p :: rest => insert_by_index p (sort_by_index rest)
  end.

(** The order in which own properties are enumerated ([Object.keys],
    [JSON.stringify]): array indices in ascending numeric order, then the
    other names in creation order. *)
Definition enumerate {A : Type} (props : list (string * A))
  : list (string * A) :=
  (sort_by_index (filter (fun p => is_index (fst p)) props)
   ++ filter (fun p => negb (is_index (fst p))) props)%list.

Definition own_keys {A : Type} (props : list (string * A)) : list string :=
  map fst (enumerate props).

(** *** JSON.stringify *)

Definition hex_digit (n : nat) : ascii :=
  nth n ["0"; "1"; "2"; "3"; "4"; "5"; "6"; "7"; "8"; "9";
         "a"; "b"; "c"; "d"; "e"; "f"]%char "0"%char.

Definition escape_char (c : ascii) : string :=
  let n := nat_of_ascii c in
  if Nat.eqb n 34 then String backslash (str dquote)
  else if Nat.eqb n 92 then String backslash (str backslash)
  else if Nat.eqb n 8 then String backslash "b"
  else if Nat.eqb n 9 then String backslash "t"
  else if Nat.eqb n 10 then String backslash "n"
  else if Nat.eqb n 12 then String backslash "f"
  else if Nat.eqb n 13 then String backslash "r"
  else if Nat.ltb n 32
       then String backslash
              ("u00" ++ String (hex_digit (n / 16)) (str (hex_digit (n mod 16))))
  else str c.

Fixpoint escape (s : string) : string :=
  match s with
  | EmptyString => EmptyString
  | String c r => escape_char c ++ escape r
  end.

Definition quote (s : string) : string :=
  String dquote (escape s) ++ str dquote.

Definition show_number (n : Z) : string :=
  NilZero.string_of_int (Z.to_int n).

Fixpoint join (sep : string) (parts : list string) : string :=
  match parts with
  | [] => EmptyString
  | [p] => p
  | p :: rest => p ++ sep ++ join sep rest
  end.

(** The bracketed body shared by arrays and objects. *)
Definition wrap (opening closing gap stepback : string)
  (parts : list string) : string :=
  match parts with
  | [] => opening ++ closing
  | _ =>
      if String.eqb gap EmptyString
      then opening ++ join "," parts ++ closing
      else let indent := stepback ++ gap in
           opening ++ newline ++ indent
           ++ join ("," ++ newline ++ indent) parts
           ++ newline ++ stepback ++ closing
  end.

(** [JSON.stringify(v, null, gap)] at indentation [stepback]; [None] is the
    [undefined] it returns for [undefined]. *)
Fixpoint serialize (gap stepback : string) (v : value) {struct v}
  : option string :=
  match v with
  | JUndefined => None
  | JNull => Some "null"
  | JBool true => Some "true"
  | JBool false => Some "false"
  | JNumber n => Some (show_number n)
  | JString s => Some (quote s)
  | JArray items =>
      let parts :=
        (fix elements (l : list value) : list string :=
           match l with
           | [] => []
           | x :: r =>
               match serialize gap (stepback ++ gap) x with
               | Some s => s
               | None => "null"
               end :: elements r
           end) items in
      Some (wrap "[" "]" gap stepback parts)
  | JObject props =>
      let colon := if String.eqb gap EmptyString then ":" else ": " in
      let members :=
        (fix members (l : list (string * value)) : list (string * string) :=
           match l with
           | [] => []
           | (k, x) :: r =>
               match serialize gap (stepback ++ gap) x with
               | Some s => (k, quote k ++ colon ++ s) :: members r
               | None => members r
               end
           end) props in
      Some (wrap "{" "}" gap stepback (map snd (enumerate members)))
  end.

Definition JSON_stringify (gap : string) (v : value) : option string :=
  serialize gap EmptyString v.

(** What [console.log] shows for the result of [JSON.stringify]. *)
Definition printed (s : option string) : string :=
  match s with
  | Some text => text
  | None => "undefined"
  end.

Definition pretty (v : value) : string := printed (JSON_stringify "  " v).

(** Truthiness, as tested by [!js] and [x || y]. *)
Definition truthy (v : value) : bool :=
  match v with
  | JUndefined | JNull | JBool false => false
  | JNumber n => negb (Z.eqb n 0)
  | JString s => negb (String.eqb s EmptyString)
  | _ => true
  end.

(** ** The program and its collaborators *)

(** What [UMFMessage.parseRoute] returns, as far as [handleRest] reads it:
    [error] is the empty string for a routable address, [httpMethod] is
    [undefined] when the address names no method. *)
Record Route : Type := {
  route_error : string;
  httpMethod : option string
}.

(** The handle returned by [redis.createClient(port, url)]. *)
Record Client : Type := {
  client_port : value;
  client_url : value
}.

(** The fields of [class Program] that the handlers read and write. *)
Record Program : Type := {
  configData : value;
  redisdb : option Client
}.

(** [constructor()]: both fields start as [null]. *)
Definition initial : Program := {| configData := JNull; redisdb := None |}.

(** Everything observable the program does, in program order. *)
Inductive event : Type :=
| DisplayHelp                              (* the lines of displayHelp *)
| ProcessExit                              (* process.exit() *)
| HydraInit (conf : value)                 (* hydra.init(conf) *)
| CreateClient (port url : value)          (* redis.createClient(port, url) *)
| Select (db : value)                      (* redisdb.select(db, ...) *)
| Keys (pattern : string)                  (* redisdb.keys(pattern, ...) *)
| Smembers (key : string)                  (* redisdb.smembers(key, ...) *)
| Hgetall (key : string)                   (* redisdb.hgetall(key, ...) *)
| Hdel (key : string) (field : option string)
| Multi                                    (* redisdb.multi() *)
| Lrange (key : string) (start stop : Z)   (* trans.lrange(key, start, stop) *)
| Exec                                     (* trans.exec(...) *)
| ConfigInit (file : option string)        (* config.init(file) *)
| SendMessage (msg : value)                (* hydra.sendMessage(msg) *)
| MakeAPIRequest (msg : value)             (* hydra.makeAPIRequest(msg) *)
| Question (prompt : string)               (* prompts.question(prompt, ...) *)
| WriteFile (content : string)             (* fs.writeFile(hydraConfig, ...) *)
| Log (line : string)                      (* console.log(line) *)
| LogError (e : error)                     (* console.log(err) *)
| LogLabelled (label : string) (e : error) (* console.log(label, err) *)
| ExitApp                                  (* this.exitApp() *)
| Escapes (e : error).                     (* an exception nobody catches *)

(** How a computation ends: normally, or with an exception (a rejected
    promise is the same thing one callback later). *)
Inductive outcome (A : Type) : Type :=
| Returned (a : A)
| Thrown (e : error).
Arguments Returned {A} a.
Arguments Thrown {A} e.

(** The answers of everything outside the source file.  A store command is
    answered through its callback; a command whose callback never fires is
    outside this model. *)
Record World : Type := {
  JSON_parse : string -> option value;
  config_file : option string;
  hydra_init : value -> option string;
  now : Z;
  elapsedSince : Z -> value -> value;
  select_reply : option string;
  keys_reply : string -> reply (list string);
  smembers_reply : string -> reply (list string);
  hgetall_reply : string -> reply (option (list (string * string)));
  hdel_reply : string -> option string -> reply Z;
  exec_reply : list string -> reply (list (list string));
  parseRoute : option string -> outcome Route;
  createMessage : value -> value;
  config_init : option string -> reply value;
  sendMessage : value -> option string;
  makeAPIRequest : value -> reply value;
  prompt_answers : string * string * string;
  writeFile_error : option string
}.

(** *** A monad for the handlers: state, trace and exceptions *)

Definition M (A : Type) : Type := Program -> list event * Program * outcome A.

Definition ret {A : Type} (a : A) : M A := fun p => ([], p, Returned a).

Definition throw {A : Type} (e : error) : M A := fun p => ([], p, Thrown e).

Definition bind {A B : Type} (m : M A) (f : A -> M B) : M B :=
  fun p =>
    match m p with
    | (t, p', Returned a) =>
        match f a p' with
        | (t', p'', r) => ((t ++ t')%list, p'', r)
        end
    | (t, p', Thrown e) => (t, p', Thrown e)
    end.

Definition try_catch {A : Type} (m : M A) (handler : error -> M A) : M A :=
  fun p =>
    match m p with
    | (t, p', Thrown e) =>
        match handler e p' with
        | (t', p'', r) => ((t ++ t')%list, p'', r)
        end
    | done => done
    end.

Definition emit (e : event) : M unit := fun p => ([e], p, Returned tt).

Definition this {A : Type} (field : Program -> A) : M A :=
  fun p => ([], p, Returned (field p)).

Definition set_configData (v : value) : M unit :=
  fun p => ([], {| configData := v; redisdb := redisdb p |}, Returned tt).

Definition set_redisdb (c : Client) : M unit :=
  fun p => ([], {| configData := configData p; redisdb := Some c |}, Returned tt).

Declare Scope js_scope.
Delimit Scope js_scope with js.
Notation "x <- m ;; k" := (bind m (fun x => k))
  (at level 61, m at next level, right associativity) : js_scope.
Notation "m ;; k" := (bind m (fun _ => k))
  (at level 61, right associativity) : js_scope.
Open Scope js_scope.

(** A promise, once created: what awaiting it gives. *)
Definition Promise (A : Type) : Type := M A.

(** [new Promise(executor)]: the executor runs at once and yields what the
    promise will settle to; an exception of the executor rejects the
    promise. *)
Definition new_Promise {A : Type} (executor : M (Promise A)) : M (Promise A) :=
  try_catch executor (fun e => ret (throw e)).

(** [Promise.all(promises)]: the results in order, or the first rejection. *)
Fixpoint Promise_all {A : Type} (promises : list (Promise A)) : M (list A) :=
  match promises with
  | [] => ret []
  | promise :: rest =>
      result <- promise ;;
      results <- Promise_all rest ;;
      ret (result :: results)
  end.

(** The trace of a whole run: an exception nobody catches (an uncaught
    exception in a callback, an unhandled rejection of a promise) ends it. *)
Definition trace_of (r : list event * Program * outcome unit) : list event :=
  match r with
  | (t, _, Returned _) => t
  | (t, _, Thrown e) => (t ++ [Escapes e])%list
  end.

Definition run (m : M unit) (p : Program) : list event := trace_of (m p).

(** *** Property access *)

(** [v.k] for the property names the program reads ([redisPort], [redisUrl],
    [redisDb], [serviceName], [updatedOn]), none of which is inherited. *)
Definition property (v : value) (k : string) : value :=
  match v with
  | JObject props =>
      match obj_lookup k props with Some x => x | None => JUndefined end
  | _ => JUndefined
  end.

Definition js_get (v : value) (k : string) : M value :=
  match v with
  | JUndefined | JNull => throw TypeError
  | _ => ret (property v k)
  end.

(** [v.k = x] in strict mode: a [TypeError] on [null], [undefined] and on a
    primitive; an array takes the named property without showing it among
    its elements. *)
Definition js_set (v : value) (k : string) (x : value) : M value :=
  match v with
  | JObject props => ret (JObject (obj_assign k x props))
  | JArray items => ret (JArray items)
  | _ => throw TypeError
  end.

Fixpoint array_indexOf (pos : Z) (items : list value) (needle : string) : Z :=
  match items with
  | [] => (-1)%Z
  | JString s :: rest =>
      if String.eqb s needle then pos else array_indexOf (pos + 1) rest needle
  | _ :: rest => array_indexOf (pos + 1) rest needle
  end.

(** [v.indexOf(needle)]: strings and arrays have the method, on anything
    else the call is a [TypeError]. *)
Definition js_indexOf (v : value) (needle : string) : M Z :=
  match v with
  | JString s => ret (indexOf s needle)
  | JArray items => ret (array_indexOf 0 items needle)
  | _ => throw TypeError
  end.

Definition redisPreKey : string := "hydra:service".

Section Handlers.

Variable W : World.

(** [JSON.parse(text)]: a value, or a [SyntaxError]. *)
Definition JSON_parse_throwing (text : string) : M value :=
  match JSON_parse W text with
  | Some v => ret v
  | None => throw SyntaxError
  end.

(** [Utils.safeJSONParse] of the fwsp-jsutils dependency: [JSON.parse] inside
    a [try], [undefined] when the text does not parse ([displayJSON] below
    tests its result with [!js] for that reason). *)
Definition safeJSONParse (text : string) : value :=
  match JSON_parse W text with
  | Some v => v
  | None => JUndefined
  end.

(** [exitApp]: schedules the shutdown routine (hydra shutdown, redis quit,
    process exit) 250 ms later. *)
Definition exitApp : M unit := emit ExitApp.

(** [redisConnect]: the callback of [select] receives [(err, result)] and
    uses neither.  The definition follows the runs in which
    [redis.createClient] returns a client and the store answers [select],
    with or without an error: a port that [createClient] refuses and a
    connection that is refused before [select] is answered are behaviour of
    the redis library that this file does not describe. *)
Definition redisConnect : M unit :=
  cfg <- this configData ;;
  port <- js_get cfg "redisPort" ;;
  url <- js_get cfg "redisUrl" ;;
  emit (CreateClient port url) ;;
  db <- js_get cfg "redisDb" ;;
  emit (Select db) ;;
  let err := select_reply W in
  set_redisdb {| client_port := port; client_url := url |}.

(** [this.redisdb.command(...)]: a [TypeError] while the field is [null]. *)
Definition store (command : event) : M unit :=
  db <- this redisdb ;;
  match db with
  | None => throw TypeError
  | Some _ => emit command
  end.

Definition getKeys (pattern : string) : M (list string) :=
  store (Keys pattern) ;;
  match keys_reply W pattern with
  | Failed err => ret []
  | Replied result => ret result
  end.

(** The key [getRoutes] builds for a service. *)
Definition routesKey (serviceName : option string) : string :=
  redisPreKey ++ ":" ++ template serviceName ++ ":service:routes".

(** What a promise settles to, as read from the answer of the store. *)
Definition settled {A : Type} (answer : reply A) : Promise A :=
  match answer with
  | Failed err => throw (HostError err)
  | Replied result => ret result
  end.

(** [getRoutes]: the command is issued while the promise is created; the
    promise settles with the answer of the store. *)
Definition getRoutes (serviceName : option string)
  : M (Promise (list string)) :=
  new_Promise
    (store (Smembers (routesKey serviceName)) ;;
     ret (settled (smembers_reply W (routesKey serviceName)))).

Definition displayJSON (json : value) : M unit :=
  match json with
  | JString text =>
      let js := safeJSONParse text in
      if truthy js then emit (Log (pretty js)) else emit (Log text)
  | _ => emit (Log (pretty json))
  end.

Definition handleConfigCommand (args : list string) : M unit :=
  if (Nat.eqb (length args) 1
      && match nth_error args 0 with
         | Some a => String.eqb a "list"
         | None => false
         end)%bool
  then
    cfg <- this configData ;;
    emit (Log (pretty cfg)) ;;
    emit ProcessExit
  else
    let '(redisUrl, redisPort, redisDb) := prompt_answers W in
    emit (Question "redisUrl: ") ;;
    emit (Question "redisPort: ") ;;
    emit (Question "redisDb: ") ;;
    cfg <- this configData ;;
    let data := if truthy cfg then cfg else JObject [] in
    data <- js_set data "redisUrl" (JString redisUrl) ;;
    data <- js_set data "redisPort" (JString redisPort) ;;
    data <- js_set data "redisDb" (JString redisDb) ;;
    emit (WriteFile (printed (JSON_stringify EmptyString data))) ;;
    match writeFile_error W with
    | Some err => emit (LogError (HostError err))
    | None => ret tt
    end ;;
    emit ProcessExit.

Fixpoint queueRanges (instances : list string) : M unit :=
  match instances with
  | [] => ret tt
  | instance :: rest => emit (Lrange instance 0 100) ;; queueRanges rest
  end.

Definition handleHealthLog (args : list string) : M unit :=
  redisConnect ;;
  instances <- getKeys ("*:" ++ template (nth_error args 0) ++ ":*:health:log") ;;
  if Nat.eqb (length instances) 0 then
    emit (Log "[]") ;;
    exitApp
  else
    store Multi ;;
    queueRanges instances ;;
    emit Exec ;;
    match exec_reply W instances with
    | Failed err => emit (LogError (HostError err))
    | Replied result =>
        match result with
        | [] => throw TypeError
        | first :: _ =>
            let response := map safeJSONParse first in
            emit (Log (pretty (JArray response)))
        end
    end ;;
    exitApp.

Definition handleMessageCreate (args : list string) : M unit :=
  let msg := createMessage W
               (JObject [("to", JString "{serviceName here}:/");
                         ("from", JString "hydra-cli:/");
                         ("body", JObject [])]) in
  displayJSON msg ;;
  exitApp.

Definition handleMessageSend (args : list string) : M unit :=
  if negb (Nat.eqb (length args) 2) then
    emit (Log "Invalid number of parameters") ;;
    exitApp
  else
    emit (ConfigInit (nth_error args 1)) ;;
    match config_init W (nth_error args 1) with
    | Replied object =>
        emit (SendMessage object) ;;
        match sendMessage W object with
        | None => exitApp
        | Some message => emit (Log message) ;; exitApp
        end
    | Failed message => emit (Log message) ;; exitApp
    end.

(** The test of [handleNodesList] that decides whether a node is listed. *)
Definition listed (args : list string) (item : value) : M bool :=
  if (Nat.eqb (length args) 0 || Nat.eqb (length args) 1)%bool then ret true
  else if Nat.eqb (length args) 2 then
    serviceName <- js_get item "serviceName" ;;
    position <- js_indexOf serviceName (template (nth_error args 1)) ;;
    ret (-1 <? position)%Z
  else ret false.

(** The body of [Object.keys(data).forEach]; each entry carries the value
    [data[entry]] of its key. *)
Fixpoint collectNodes (args : list string) (entries : list (string * string))
  : M (list value) :=
  match entries with
  | [] => ret []
  | (entry, text) :: rest =>
      let item := safeJSONParse text in
      wanted <- listed args item ;;
      if wanted then
        updatedOn <- js_get item "updatedOn" ;;
        item <- js_set item "elapsed" (elapsedSince W (now W) updatedOn) ;;
        nodes <- collectNodes args rest ;;
        ret (item :: nodes)
      else collectNodes args rest
  end.

Definition handleNodesList (args : list string) : M unit :=
  redisConnect ;;
  store (Hgetall (redisPreKey ++ ":nodes")) ;;
  match hgetall_reply W (redisPreKey ++ ":nodes") with
  | Failed err => emit (LogError (HostError err))
  | Replied None => ret tt
  | Replied (Some data) =>
      nodes <- collectNodes args (enumerate data) ;;
      emit (Log (pretty (JArray nodes)))
  end ;;
  exitApp.

Definition handleNodesRemove (args : list string) : M unit :=
  (if negb (Nat.eqb (length args) 2) then
     emit (Log "Missing parameter id") ;;
     exitApp
   else ret tt) ;;
  redisConnect ;;
  store (Hdel (redisPreKey ++ ":nodes") (nth_error args 1)) ;;
  match hdel_reply W (redisPreKey ++ ":nodes") (nth_error args 1) with
  | Failed err => emit (LogError (HostError err))
  | Replied _ =>
      emit (Log ("nodes entry " ++ template (nth_error args 1) ++ " removed"))
  end ;;
  exitApp.

(** The tail shared by both branches of [handleRest]. *)
Definition request (msg : value) : M unit :=
  emit (MakeAPIRequest msg) ;;
  match makeAPIRequest W msg with
  | Replied res => displayJSON res ;; exitApp
  | Failed err => emit (LogLabelled "err" (HostError err)) ;; exitApp
  end.

(** [route.httpMethod || 'get']. *)
Definition resolvedMethod (route : Route) : string :=
  match httpMethod route with
  | Some m => if String.eqb m EmptyString then "get" else m
  | None => "get"
  end.

Definition handleRest (args : list string) : M unit :=
  match parseRoute W (nth_error args 0) with
  | Thrown e => throw e
  | Returned route =>
      if negb (String.eqb (route_error route) EmptyString) then
        emit (Log (route_error route)) ;;
        exitApp
      else
        let method := resolvedMethod route in
        if ((String.eqb method "get" || String.eqb method "delete")
            && Nat.ltb 1 (length args))%bool
        then
          emit (Log ("Payload not allowed for HTTP '" ++ method ++ "' method")) ;;
          exitApp
        else if Nat.ltb 1 (length args) then
          emit (ConfigInit (nth_error args 1)) ;;
          match config_init W (nth_error args 1) with
          | Replied object =>
              let msg := createMessage W
                           (JObject [("to", JString (template (nth_error args 0)));
                                     ("from", JString "hydra-cli:/");
                                     ("body", if truthy object then object
                                              else JObject [])]) in
              request msg
          | Failed err =>
              emit (Log ("Unable to open " ++ template (nth_error args 1))) ;;
              exitApp
          end
        else
          let msg := createMessage W
                       (JObject [("to", JString (template (nth_error args 0)));
                                 ("from", JString "hydra-cli:/");
                                 ("body", JObject [])]) in
          request msg
  end.

(** The first [forEach] of [handleRoutes]: the services kept and the promise
    of the routes of each. *)
Fixpoint selectServices (args : list string) (serviceRoutes : list string)
  : M (list (option string) * list (Promise (list string))) :=
  match serviceRoutes with
  | [] => ret ([], [])
  | service :: rest =>
      let segments := split ":" service in
      let serviceName := nth_error segments 2 in
      wanted <-
        (if Nat.eqb (length args) 0 then ret true
         else if Nat.eqb (length args) 1 then
           match serviceName with
           | Some name =>
               ret (-1 <? indexOf name (template (nth_error args 0)))%Z
           | None => throw TypeError
           end
         else ret false) ;;
      if wanted then
        promise <- getRoutes serviceName ;;
        later <- selectServices args rest ;;
        ret (serviceName :: fst later, promise :: snd later)
      else selectServices args rest
  end.

(** The second [forEach]: [resObj[serviceNames[idx]] = routesList]. *)
Fixpoint assemble (serviceNames : list (option string)) (idx : nat)
  (routes : list (list string)) (resObj : list (string * value))
  : list (string * value) :=
  match routes with
  | [] => resObj
  | routesList :: rest =>
      let key := match nth_error serviceNames idx with
                 | Some name => template name
                 | None => "undefined"
                 end in
      assemble serviceNames (S idx) rest
        (obj_assign key (JArray (map JString routesList)) resObj)
  end.

Definition handleRoutes (args : list string) : M unit :=
  redisConnect ;;
  try_catch
    (serviceRoutes <- getKeys "*:routes" ;;
     found <- selectServices args serviceRoutes ;;
     let serviceNames := fst found in
     let promises := snd found in
     routes <- Promise_all promises ;;
     let resObj := assemble serviceNames 0 routes [] in
     emit (Log (pretty (JObject resObj))) ;;
     exitApp)
    (fun err => emit (LogError err) ;; exitApp).

(** The body of the [readFile] callback up to the dispatch: the config is
    parsed and handed to hydra inside a [try]. *)
Definition loadConfig : M unit :=
  match config_file W with
  | None => ret tt
  | Some data =>
      try_catch
        (parsed <- JSON_parse_throwing data ;;
         set_configData parsed ;;
         url <- js_get parsed "redisUrl" ;;
         port <- js_get parsed "redisPort" ;;
         db <- js_get parsed "redisDb" ;;
         let conf :=
           JObject [("serviceName", JString "hydra-cli");
                    ("serviceDescription", JString "Not a service");
                    ("serviceIP", JString EmptyString);
                    ("servicePort", JNumber 0);
                    ("serviceType", JString "non");
                    ("redis", JObject [("url", url); ("port", port);
                                       ("db", db)])] in
         emit (HydraInit conf) ;;
         match hydra_init W conf with
         | Some message => throw (HostError message)
         | None => ret tt
         end)
        (fun e => set_configData JNull)
  end.

(** [main], on the arguments after the script name. *)
Definition main (argv : list string) : M unit :=
  match argv with
  | [] => emit DisplayHelp ;; emit ProcessExit
  | command :: args =>
      loadConfig ;;
      if String.eqb command "config" then handleConfigCommand args
      else if String.eqb command "help" then emit DisplayHelp ;; emit ProcessExit
      else if String.eqb command "message" then
        match nth_error args 0 with
        | Some "create" => handleMessageCreate args
        | Some "send" => handleMessageSend args
        | other =>
            emit (Log ("Unknown message options: " ++ template other)) ;;
            exitApp
        end
      else if String.eqb command "nodes" then
        match nth_error args 0 with
        | Some "list" => handleNodesList args
        | Some "remove" => handleNodesRemove args
        | other =>
            if Nat.eqb (length args) 0 then handleNodesList args
            else
              emit (Log ("Unknown nodes options: " ++ template other)) ;;
              exitApp
        end
      else if String.eqb command "rest" then handleRest args
      else if String.eqb command "routes" then handleRoutes args
      else if String.eqb command "healthlog" then handleHealthLog args
      else
        emit (Log ("Unknown command: " ++ command)) ;;
        exitApp
  end.

End Handlers.

(** ** Sample worlds *)

(** A parser given by a finite table of texts and the values they denote;
    any other text is rejected. *)
Definition parse_table (table : list (string * value)) (text : string)
  : option value :=
  obj_lookup text table.

(** [{"a":1}], written without string escapes. *)
Definition text_a1 : string :=
  "{" ++ str dquote ++ "a" ++ str dquote ++ ":1}".

(** [{"serviceName":"<name>","updatedOn":"<stamp>"}] and the value it parses
    to. *)
Definition node_text (name stamp : string) : string :=
  "{" ++ quote "serviceName" ++ ":" ++ quote name ++ ","
      ++ quote "updatedOn" ++ ":" ++ quote stamp ++ "}".

Definition node_value (name stamp : string) : value :=
  JObject [("serviceName", JString name); ("updatedOn", JString stamp)].

Definition config_text : string :=
  "{" ++ quote "redisUrl" ++ ":" ++ quote "127.0.0.1" ++ ","
      ++ quote "redisPort" ++ ":" ++ quote "6379" ++ ","
      ++ quote "redisDb" ++ ":" ++ quote "15" ++ "}".

Definition config_value : value :=
  JObject [("redisUrl", JString "127.0.0.1"); ("redisPort", JString "6379");
           ("redisDb", JString "15")].

Definition documents : list (string * value) :=
  [(text_a1, JObject [("a", JNumber 1)]);
   (config_text, config_value);
   (node_text "auth-service" "t1", node_value "auth-service" "t1");
   (node_text "user-service" "t2", node_value "user-service" "t2");
   (node_text "Auth" "t3", node_value "Auth" "t3")].

(** A world with a running store: the config file is [file], the database
    selection answers [selected], [keys] answers [found] for every pattern,
    the route sets are those of [sets], the node hash is [nodes] and the
    batch read returns [logs]. *)
Definition world (file : option string) (selected : option string)
  (found : reply (list string)) (sets : list (string * list string))
  (nodes : option (list (string * string))) (logs : list (list string))
  : World := {|
  JSON_parse := parse_table documents;
  config_file := file;
  hydra_init := fun _ => None;
  now := 1000;
  elapsedSince := fun _ _ => JNumber 5;
  select_reply := selected;
  keys_reply := fun _ => found;
  smembers_reply := fun key =>
    match obj_lookup key sets with
    | Some routes => Replied routes
    | None => Failed "WRONGTYPE"
    end;
  hgetall_reply := fun _ => Replied nodes;
  hdel_reply := fun _ _ => Replied 1%Z;
  exec_reply := fun _ => Replied logs;
  parseRoute := fun address =>
    match address with
    | Some "[get]svc:/v1/ping" =>
        Returned {| route_error := EmptyString; httpMethod := Some "get" |}
    | Some "[post]svc:/v1/ping" =>
        Returned {| route_error := EmptyString; httpMethod := Some "post" |}
    | Some "svc:/v1/ping" =>
        Returned {| route_error := EmptyString; httpMethod := None |}
    | Some _ =>
        Returned {| route_error := "route is missing"; httpMethod := None |}
    | None => Thrown TypeError
    end;
  createMessage := fun fields => fields;
  config_init := fun _ => Failed "ENOENT";
  sendMessage := fun _ => None;
  makeAPIRequest := fun _ => Failed "unavailable";
  prompt_answers := ("127.0.0.1", "6379", "15");
  writeFile_error := None
|}.

(** The same world with another answer to [select]. *)
Definition with_select_reply (W : World) (answer : option string) : World := {|
  JSON_parse := JSON_parse W;
  config_file := config_file W;
  hydra_init := hydra_init W;
  now := now W;
  elapsedSince := elapsedSince W;
  select_reply := answer;
  keys_reply := keys_reply W;
  smembers_reply := smembers_reply W;
  hgetall_reply := hgetall_reply W;
  hdel_reply := hdel_reply W;
  exec_reply := exec_reply W;
  parseRoute := parseRoute W;
  createMessage := createMessage W;
  config_init := config_init W;
  sendMessage := sendMessage W;
  makeAPIRequest := makeAPIRequest W;
  prompt_answers := prompt_answers W;
  writeFile_error := writeFile_error W
|}.

(** The state after a config file holding [config_text] was loaded. *)
Definition sample_program : Program :=
  {| configData := config_value; redisdb := None |}.

(** * Vocabulary of the properties *)

(** A config was loaded: [this.configData] is neither [null] nor
    [undefined]. *)
Definition loaded (p : Program) : bool :=
  match configData p with
  | JUndefined | JNull => false
  | _ => true
  end.

(** The two calls [redisConnect] makes on the redis library. *)
Definition connects (p : Program) : list event :=
  [CreateClient (property (configData p) "redisPort")
                (property (configData p) "redisUrl");
   Select (property (configData p) "redisDb")].

(** The program once [this.redisdb] holds the client. *)
Definition connected (p : Program) : Program :=
  {| configData := configData p;
     redisdb := Some {| client_port := property (configData p) "redisPort";
                        client_url := property (configData p) "redisUrl" |} |}.

(** Classes of events. *)
Definition connection_attempt (e : event) : bool :=
  match e with
  | CreateClient _ _ | Select _ => true
  | _ => false
  end.

Definition store_command (e : event) : bool :=
  match e with
  | Keys _ | Smembers _ | Hgetall _ | Hdel _ _ | Multi | Lrange _ _ _ | Exec =>
      true
  | _ => false
  end.

Definition batch_read (e : event) : bool :=
  match e with
  | Multi | Lrange _ _ _ | Exec => true
  | _ => false
  end.

Definition network_call (e : event) : bool :=
  match e with
  | ConfigInit _ | SendMessage _ | MakeAPIRequest _ => true
  | _ => connection_attempt e || store_command e
  end.

(** The trace stays away from the store. *)
Definition offline (t : list event) : bool :=
  forallb (fun e => negb (connection_attempt e || store_command e)) t.

(** The pattern [handleHealthLog] enumerates for a service. *)
Definition healthPattern (serviceName : string) : string :=
  "*:" ++ serviceName ++ ":*:health:log".

(** What failing fast would look like in a trace: the error of the store is
    printed and no store command follows. *)
Definition surfaces_and_stops (message : string) (t : list event) : Prop :=
  In (LogError (HostError message)) t
  /\ forallb (fun e => negb (store_command e)) t = true.

(** The config file is missing, or its content is not JSON. *)
Definition unreadable (W : World) : Prop :=
  match config_file W with
  | None => True
  | Some data => JSON_parse W data = None
  end.



(** A handler turned the invocation down: one diagnostic line, the shutdown,
    and nothing else. *)
Definition refused (t : list event) : Prop :=
  exists diagnostic, t = [Log diagnostic; ExitApp].

(** How an element of an array is printed: [undefined] as [null]. *)
Definition shown (v : value) : value :=
  match v with
  | JUndefined => JNull
  | _ => v
  end.

(** [needle] occurs in [hay], character for character. *)
Definition contains (hay needle : string) : Prop :=
  exists before after, hay = before ++ needle ++ after.

(** A stored value is a service node: it parses to an object whose
    [serviceName] is a string. *)
Definition service_node (W : World) (text : string) : Prop :=
  exists props name,
    JSON_parse W text = Some (JObject props)
    /\ obj_lookup "serviceName" props = Some (JString name).

(** The [serviceName] of a node. *)
Definition serviceName_of (item : value) : string :=
  match property item "serviceName" with
  | JString name => name
  | _ => EmptyString
  end.

(** The node as printed: with its [elapsed] field set. *)
Definition with_elapsed (W : World) (item : value) : value :=
  match item with
  | JObject props =>
      JObject (obj_assign "elapsed"
                 (elapsedSince W (now W) (property item "updatedOn")) props)
  | _ => item
  end.

(** The test [item.serviceName.indexOf(filter) > -1]. *)
Definition name_matches (nameFilter : string) (item : value) : bool :=
  (-1 <? indexOf (serviceName_of item) nameFilter)%Z.

(** The nodes of the hash, in the order [Object.keys] visits them. *)
Definition stored_nodes (W : World) (data : list (string * string))
  : list value :=
  map (fun entry => safeJSONParse W (snd entry)) (enumerate data).

(** A computation that prints nothing, keeps the program as it is and can
    only end normally or in a [TypeError]. *)
Definition quiet {A : Type} (m : M A) : Prop :=
  forall p, exists r,
    m p = ([], p, r)
    /\ match r with Thrown e => e = TypeError | Returned _ => True end.

(** [k] is an own property. *)
Definition has_key {A : Type} (k : string) (props : list (string * A)) : bool :=
  existsb (String.eqb k) (map fst props).

(** Any name but [__proto__]. *)
Definition ordinary (k : string) : bool := negb (String.eqb k "__proto__").

(** A sequence of names without its repetitions, each name at its first
    place. *)
Fixpoint first_occurrences (names : list string) : list string :=
  match names with
  | [] => []
  | name :: rest =>
      name :: filter (fun other => negb (String.eqb other name))
                (first_occurrences rest)
  end.

(** Ascending numeric order of array indices. *)
Definition index_le (a b : string) : Prop :=
  (index_value a <= index_value b)%N.

(** The service name [handleRoutes] reads off a key: its third segment. *)
Definition extracted (key : string) : option string :=
  nth_error (split ":" key) 2.

(** The names read off the keys, in the order of the keys. *)
Definition discovered (keys : list string) : list string :=
  flat_map (fun key => match extracted key with
                       | Some name => [name]
                       | None => []
                       end) keys.

(** The discovered names that contain the filter, in discovery order. *)
Definition selected (nameFilter : string) (keys : list string) : list string :=
  filter (fun name => (-1 <? indexOf name nameFilter)%Z) (discovered keys).

(** The route set of a service as it enters the object. *)
Definition route_set (routes_of : string -> list string) (name : string)
  : value :=
  JArray (map JString (routes_of name)).

(** The object built by assigning [value_of name] under each name in turn. *)
Definition assign_all (value_of : string -> value) (names : list string)
  (resObj : list (string * value)) : list (string * value) :=
  fold_left (fun obj name => obj_assign name (value_of name) obj) names resObj.

(** ** Vocabulary of the further properties *)

(** The events of a computation, whatever its outcome. *)
Definition events_of {A : Type} (r : list event * Program * outcome A)
  : list event :=
  fst (fst r).

(** No event of class [P] is ever emitted by [m]. *)
Definition silent_about {A : Type} (P : event -> bool) (m : M A) : Prop :=
  forall p, forallb (fun e => negb (P e)) (events_of (m p)) = true.

(** An event that touches the store. *)
Definition touches_store (e : event) : bool :=
  connection_attempt e || store_command e.

(** A computation that, when it returns, has just scheduled the shutdown or
    left the process. *)
Definition finishes (m : M unit) : Prop :=
  forall p,
    match m p with
    | (t, _, Returned _) =>
        exists before, t = (before ++ [ExitApp])%list
                       \/ t = (before ++ [ProcessExit])%list
    | (_, _, Thrown _) => True
    end.

(** A trace whose last event is the shutdown, the exit or an exception. *)
Definition closes (t : list event) : Prop :=
  exists before final,
    t = (before ++ [final])%list
    /\ (final = ExitApp \/ final = ProcessExit \/ exists e, final = Escapes e).

(** The object [main] hands to [hydra.init] for a parsed config. *)
Definition hydra_conf (parsed : value) : value :=
  JObject [("serviceName", JString "hydra-cli");
           ("serviceDescription", JString "Not a service");
           ("serviceIP", JString EmptyString);
           ("servicePort", JNumber 0);
           ("serviceType", JString "non");
           ("redis", JObject [("url", property parsed "redisUrl");
                              ("port", property parsed "redisPort");
                              ("db", property parsed "redisDb")])].

(** The verbs [main] knows. *)
Definition verbs : list string :=
  ["config"; "help"; "message"; "nodes"; "rest"; "routes"; "healthlog"].

(** The fields [handleConfigCommand] starts from: those of the loaded
    object, none when the config is falsy. *)
Definition config_fields (cfg : value) : option (list (string * value)) :=
  match cfg with
  | JObject props => Some props
  | JArray _ => None
  | _ => if truthy cfg then None else Some []
  end.

(** The truthy primitives: [true], a number other than zero, a string that
    is not empty. *)
Definition truthy_primitive (v : value) : bool :=
  match v with
  | JBool _ | JNumber _ | JString _ => truthy v
  | _ => false
  end.

(** The message [handleRest] builds for an address and a body. *)
Definition envelope (address : option string) (body : value) : value :=
  JObject [("to", JString (template address));
           ("from", JString "hydra-cli:/");
           ("body", body)].

(** The method allows a payload. *)
Definition takes_payload (route : Route) : bool :=
  negb (String.eqb (resolvedMethod route) "get"
        || String.eqb (resolvedMethod route) "delete").

(** The error of the first route set, in order, that cannot be read. *)
Fixpoint first_failure (W : World) (names : list (option string))
  : option string :=
  match names with
  | [] => None
  | name :: rest =>
      match smembers_reply W (routesKey name) with
      | Failed err => Some err
      | Replied _ => first_failure W rest
      end
  end.

(** The string holds no colon. *)
Fixpoint colon_free (s : string) : bool :=
  match s with
  | EmptyString => true
  | String c rest => negb (Ascii.eqb c ":"%char) && colon_free rest
  end.

(** The routes the store holds for a service, none when the read fails. *)
Definition routes_read (W : World) (name : string) : list string :=
  match smembers_reply W (routesKey (Some name)) with
  | Replied routes => routes
  | Failed _ => []
  end.

(** The name under which [handleRoutes] files a key when no filter is given:
    its third segment, [undefined] when it has none. *)
Definition filed_under (key : string) : string := template (extracted key).

(** The object [config] writes when it starts from no config. *)
Definition answers_object (redisUrl redisPort redisDb : string) : value :=
  JObject [("redisUrl", JString redisUrl); ("redisPort", JString redisPort);
           ("redisDb", JString redisDb)].

(** The line [displayJSON] prints. *)
Definition displayed (W : World) (json : value) : string :=
  match json with
  | JString text =>
      if truthy (safeJSONParse W text) then pretty (safeJSONParse W text)
      else text
  | _ => pretty json
  end.

(** What [handleRest] does once its message is built: the request, then
    the response or the error, then the shutdown. *)
Definition exchange (W : World) (msg : value) : list event :=
  [MakeAPIRequest msg;
   match makeAPIRequest W msg with
   | Replied res => Log (displayed W res)
   | Failed err => LogLabelled "err" (HostError err)
   end;
   ExitApp].

(** A deletion in the store. *)
Definition is_delete (e : event) : bool :=
  match e with
  | Hdel _ _ => true
  | _ => false
  end.

(** A deletion other than that of [field] under [key]. *)
Definition other_delete (key : string) (field : option string) (e : event)
  : bool :=
  match e with
  | Hdel k f =>
      negb (String.eqb k key
            && match f, field with
               | Some a, Some b => String.eqb a b
               | None, None => true
               | _, _ => false
               end)
  | _ => false
  end.

(** A promise that settles without doing anything. *)
Definition inert {A : Type} (promise : Promise A) : Prop :=
  forall p, events_of (promise p) = [].

(** The call that opens the client. *)
Definition opens (e : event) : bool :=
  match e with
  | CreateClient _ _ => true
  | _ => false
  end.

(** Every store command of the trace comes after the client was opened;
    [seen] tells whether it was opened before the trace starts. *)
Fixpoint guarded (seen : bool) (t : list event) : bool :=
  match t with
  | [] => true
  | e :: rest =>
      (negb (store_command e) || seen) && guarded (seen || opens e) rest
  end.

(** A computation that, started without a client, issues no store command
    before it has opened one, and holds a client afterwards only if it
    opened one. *)
Definition keeps_order {A : Type} (m : M A) : Prop :=
  forall p, redisdb p = None ->
    match m p with
    | (t, p', _) =>
        guarded false t = true
        /\ (redisdb p' <> None -> existsb opens t = true)
    end.

(** A computation that, started without a client, throws at once. *)
Definition blocked {A : Type} (m : M A) : Prop :=
  forall p, redisdb p = None -> exists e, m p = ([], p, Thrown e).

(** The [switch] statements of [main] written with comparisons;
    [main_dispatch] below shows that [main] computes exactly this. *)
Definition dispatch (W : World) (command : string) (args : list string)
  : M unit :=
  let sub := nth_error args 0 in
  let chosen name := match sub with
                 | Some o => String.eqb o name
                 | None => false
                 end in
  if String.eqb command "config" then handleConfigCommand W args
  else if String.eqb command "help" then emit DisplayHelp ;; emit ProcessExit
  else if String.eqb command "message" then
    if chosen "create" then handleMessageCreate W args
    else if chosen "send" then handleMessageSend W args
    else emit (Log ("Unknown message options: " ++ template sub)) ;; exitApp
  else if String.eqb command "nodes" then
    if chosen "list" then handleNodesList W args
    else if chosen "remove" then handleNodesRemove W args
    else if Nat.eqb (length args) 0 then handleNodesList W args
    else emit (Log ("Unknown nodes options: " ++ template sub)) ;; exitApp
  else if String.eqb command "rest" then handleRest W args
  else if String.eqb command "routes" then handleRoutes W args
  else if String.eqb command "healthlog" then handleHealthLog W args
  else emit (Log ("Unknown command: " ++ command)) ;; exitApp.

(** * Properties *)

(** ** The embedding at work *)

Example pretty_sample :
  pretty (JArray [JObject [("b", JString "x"); ("10", JNull); ("9", JUndefined);
                           ("2", JArray [])]; JUndefined; JNumber (-5)])
  = "[" ++ newline ++ "  {" ++ newline
    ++ "    " ++ quote "2" ++ ": []," ++ newline
    ++ "    " ++ quote "10" ++ ": null," ++ newline
    ++ "    " ++ quote "b" ++ ": " ++ quote "x" ++ newline
    ++ "  }," ++ newline ++ "  null," ++ newline ++ "  -5" ++ newline ++ "]".
Proof. reflexivity. Qed.

Example split_sample :
  split ":" "hydra:service:auth:service:routes"
  = ["hydra"; "service"; "auth"; "service"; "routes"].
Proof. reflexivity. Qed.

Example indexOf_sample :
  indexOf "user-service" "ser" = 1%Z /\ indexOf "user" "User" = (-1)%Z
  /\ indexOf "user" EmptyString = 0%Z.
Proof. repeat split. Qed.

(** ** Running the monad *)

Lemma bind_returned {A B : Type} (m : M A) (f : A -> M B) p t p' a :
  m p = (t, p', Returned a) ->
  bind m f p = match f a p' with (t', p'', r) => ((t ++ t')%list, p'', r) end.
Proof. intros H. unfold bind. rewrite H. reflexivity. Qed.

Lemma bind_thrown {A B : Type} (m : M A) (f : A -> M B) p t p' e :
  m p = (t, p', Thrown e) -> bind m f p = (t, p', Thrown e).
Proof. intros H. unfold bind. rewrite H. reflexivity. Qed.

Lemma bind_silent {A B : Type} (m : M A) (f : A -> M B) p a :
  m p = ([], p, Returned a) -> bind m f p = f a p.
Proof.
  intros H. rewrite (bind_returned _ _ _ _ _ _ H).
  destruct (f a p) as [[t p'] r]. reflexivity.
Qed.

(** One step of a handler whose outcome is known. *)
Tactic Notation "step" uconstr(H) := rewrite (bind_returned _ _ _ _ _ _ H).
Tactic Notation "stop" uconstr(H) := rewrite (bind_thrown _ _ _ _ _ _ H).

(** ** Connecting *)

Lemma redisConnect_loaded W p :
  loaded p = true -> redisConnect W p = (connects p, connected p, Returned tt).
Proof.
  destruct p as [cfg db]. unfold loaded, connects, connected. simpl.
  destruct cfg; intros H; try discriminate H; reflexivity.
Qed.

Lemma redisConnect_unloaded W p :
  loaded p = false -> redisConnect W p = ([], p, Thrown TypeError).
Proof.
  destruct p as [cfg db]. unfold loaded. simpl.
  destruct cfg; intros H; try discriminate H; reflexivity.
Qed.

Lemma store_connected command p :
  store command (connected p) = ([command], connected p, Returned tt).
Proof. reflexivity. Qed.

(** ** Wildcard enumeration *)

(** C9: when the [keys] command fails, [getKeys] resolves to the empty
    sequence; a caller sees exactly what it sees when the command succeeds
    and finds no key. *)
Theorem getKeys_hides_lookup_fault W pattern message p client :
  redisdb p = Some client ->
  keys_reply W pattern = Failed message ->
  getKeys W pattern p = ([Keys pattern], p, Returned [])
  /\ forall W', keys_reply W' pattern = Replied [] ->
                getKeys W' pattern p = getKeys W pattern p.
Proof.
  intros Hdb Hkeys.
  assert (Hrun : forall V, getKeys V pattern p
                 = ([Keys pattern], p,
                    Returned match keys_reply V pattern with
                             | Failed _ => []
                             | Replied result => result
                             end)).
  { intros V. unfold getKeys, store, bind, this, emit, ret. rewrite Hdb.
    destruct (keys_reply V pattern); reflexivity. }
  split.
  - rewrite Hrun, Hkeys. reflexivity.
  - intros W' Hempty. rewrite !Hrun, Hkeys, Hempty. reflexivity.
Qed.

Lemma getKeys_hides_lookup_fault_witness :
  let W := world (Some config_text) None (Failed "ECONNRESET") [] None [] in
  getKeys W "*:routes" (connected sample_program)
  = ([Keys "*:routes"], connected sample_program, Returned [])
  /\ forall W', keys_reply W' "*:routes" = Replied [] ->
                getKeys W' "*:routes" (connected sample_program)
                = getKeys W "*:routes" (connected sample_program).
Proof.
  intros W.
  exact (getKeys_hides_lookup_fault W "*:routes" "ECONNRESET"
           (connected sample_program)
           {| client_port := JString "6379"; client_url := JString "127.0.0.1" |}
           eq_refl eq_refl).
Defined.

Lemma getKeys_connected W pattern p :
  getKeys W pattern (connected p)
  = ([Keys pattern], connected p,
     Returned match keys_reply W pattern with
              | Failed _ => []
              | Replied result => result
              end).
Proof.
  unfold getKeys, store, bind, this, emit, ret. simpl.
  destruct (keys_reply W pattern); reflexivity.
Qed.

(** ** The health log without instances *)

(** C6: [healthlog <serviceName>] whose key enumeration finds no instance key
    prints the literal [[]] and shuts down; no batch read is issued. *)
Theorem healthlog_without_instances W serviceName p :
  loaded p = true ->
  keys_reply W (healthPattern serviceName) = Replied [] ->
  run (handleHealthLog W [serviceName]) p
  = (connects p ++ [Keys (healthPattern serviceName); Log "[]"; ExitApp])%list
  /\ forallb (fun e => negb (batch_read e))
       (run (handleHealthLog W [serviceName]) p) = true.
Proof.
  intros Hcfg Hkeys.
  assert (Hrun : run (handleHealthLog W [serviceName]) p
                 = (connects p
                    ++ [Keys (healthPattern serviceName); Log "[]"; ExitApp])%list).
  { unfold run, handleHealthLog.
    step (redisConnect_loaded W p Hcfg).
    cbn [nth_error template]. fold (healthPattern serviceName).
    step (getKeys_connected W _ p).
    rewrite Hkeys. reflexivity. }
  split; [exact Hrun | rewrite Hrun; reflexivity].
Qed.

Lemma healthlog_without_instances_witness :
  let W := world (Some config_text) None (Replied []) [] None [] in
  run (handleHealthLog W ["auth-service"]) sample_program
  = [CreateClient (JString "6379") (JString "127.0.0.1"); Select (JString "15");
     Keys "*:auth-service:*:health:log"; Log "[]"; ExitApp]
  /\ forallb (fun e => negb (batch_read e))
       (run (handleHealthLog W ["auth-service"]) sample_program) = true.
Proof.
  intros W.
  exact (healthlog_without_instances W "auth-service" sample_program
           eq_refl eq_refl).
Defined.

(** ** Payloads on [rest] *)

(** C4: a [rest] invocation that supplies a payload file while its route
    resolves to [get] (also by default) or [delete] prints a diagnostic and
    shuts down; nothing is loaded and no request is made. *)
Theorem rest_rejects_payload W args route p :
  parseRoute W (nth_error args 0) = Returned route ->
  resolvedMethod route = "get" \/ resolvedMethod route = "delete" ->
  (1 < length args)%nat ->
  run (handleRest W args) p
  = [Log (if String.eqb (route_error route) EmptyString
          then "Payload not allowed for HTTP '" ++ resolvedMethod route
               ++ "' method"
          else route_error route);
     ExitApp]
  /\ forallb (fun e => negb (network_call e)) (run (handleRest W args) p) = true.
Proof.
  intros Hroute Hmethod Hargs.
  assert (Hlen : Nat.ltb 1 (length args) = true) by (apply Nat.ltb_lt; exact Hargs).
  assert (Hrun : run (handleRest W args) p
                 = [Log (if String.eqb (route_error route) EmptyString
                         then "Payload not allowed for HTTP '"
                              ++ resolvedMethod route ++ "' method"
                         else route_error route);
                    ExitApp]).
  { unfold run, handleRest. rewrite Hroute.
    destruct (String.eqb (route_error route) EmptyString).
    - cbn [negb]. rewrite Hlen.
      destruct Hmethod as [-> | ->]; reflexivity.
    - reflexivity. }
  split; [exact Hrun | rewrite Hrun; reflexivity].
Qed.

Lemma rest_rejects_payload_witness :
  let W := world (Some config_text) None (Replied []) [] None [] in
  run (handleRest W ["svc:/v1/ping"; "payload.json"]) sample_program
  = [Log "Payload not allowed for HTTP 'get' method"; ExitApp]
  /\ forallb (fun e => negb (network_call e))
       (run (handleRest W ["svc:/v1/ping"; "payload.json"]) sample_program)
     = true.
Proof.
  intros W.
  refine (rest_rejects_payload W ["svc:/v1/ping"; "payload.json"]
            {| route_error := EmptyString; httpMethod := None |}
            sample_program eq_refl (or_introl eq_refl) _).
  simpl. lia.
Defined.

(** ** Errors of the connection *)

(** C1, as stated, fails: with a database index that the store rejects,
    [redisConnect] still hands out the client, and [nodes remove abc] deletes
    the entry without printing the error. *)
Lemma select_error_goes_unnoticed :
  let W := world (Some config_text) (Some "ERR DB index is out of range")
             (Replied []) [] None [] in
  select_reply W = Some "ERR DB index is out of range"
  /\ redisConnect W sample_program
     = (connects sample_program, connected sample_program, Returned tt)
  /\ redisdb (connected sample_program) <> None
  /\ run (handleNodesRemove W ["remove"; "abc"]) sample_program
     = [CreateClient (JString "6379") (JString "127.0.0.1");
        Select (JString "15");
        Hdel "hydra:service:nodes" (Some "abc");
        Log "nodes entry abc removed"; ExitApp]
  /\ ~ surfaces_and_stops "ERR DB index is out of range"
         (run (handleNodesRemove W ["remove"; "abc"]) sample_program).
Proof.
  intros W. repeat split; try reflexivity.
  - discriminate.
  - intros [_ Hstop]. vm_compute in Hstop. discriminate Hstop.
Qed.

(** C1, amended: when the store answers [select] with an error (an invalid
    database index), [redisConnect] does exactly what it does when the
    selection succeeds, because the error argument of the callback is never
    read: whenever the connect operation resolves after a successful
    selection it resolves in the same way after a failed one, with the same
    calls and with the client kept, and every run of the program is the run
    it would be after a successful selection.  Nothing is said here of a
    client that cannot be created or of a connection that is refused. *)
Theorem redisConnect_ignores_select_error W answer p :
  redisConnect (with_select_reply W answer) p
  = redisConnect (with_select_reply W None) p
  /\ (forall t p',
        redisConnect (with_select_reply W None) p = (t, p', Returned tt) ->
        redisConnect (with_select_reply W answer) p = (t, p', Returned tt)
        /\ redisdb p' <> None)
  /\ forall argv,
       run (main (with_select_reply W answer) argv) p
       = run (main (with_select_reply W None) argv) p.
Proof.
  split; [| split].
  - reflexivity.
  - intros t p' Hok. split; [exact Hok |].
    destruct (loaded p) eqn:Hcfg.
    + rewrite (redisConnect_loaded _ p Hcfg) in Hok.
      inversion Hok; subst. discriminate.
    + rewrite (redisConnect_unloaded _ p Hcfg) in Hok. discriminate Hok.
  - intros argv. destruct W. reflexivity.
Qed.

Lemma redisConnect_ignores_select_error_witness :
  let W := world (Some config_text) None (Replied []) [] None [] in
  redisConnect (with_select_reply W (Some "ERR DB index is out of range"))
    sample_program
  = (connects sample_program, connected sample_program, Returned tt)
  /\ redisdb (connected sample_program) <> None.
Proof.
  intros W.
  exact (proj1 (proj2 (redisConnect_ignores_select_error W
                         (Some "ERR DB index is out of range") sample_program))
           (connects sample_program) (connected sample_program) eq_refl).
Defined.

(** ** Starting without a usable config *)





Lemma loadConfig_unreadable W :
  unreadable W -> loadConfig W initial = ([], initial, Returned tt).
Proof.
  unfold unreadable, loadConfig. destruct (config_file W) as [data |].
  - intros Hparse. unfold try_catch, bind, JSON_parse_throwing.
    rewrite Hparse. reflexivity.
  - reflexivity.
Qed.




(** ** Argument counts *)

(** C3, as stated, fails: [routes] takes at most one argument and [healthlog]
    exactly one ([displayHelp]), yet [routes a b] and [healthlog] alone
    connect and query the store without any diagnostic. *)
Lemma arity_is_not_checked_everywhere :
  let W := world (Some config_text) None (Replied []) [] None [] in
  run (handleRoutes W ["a"; "b"]) sample_program
  = (connects sample_program ++ [Keys "*:routes"; Log "{}"; ExitApp])%list
  /\ run (handleHealthLog W []) sample_program
     = (connects sample_program
        ++ [Keys "*:undefined:*:health:log"; Log "[]"; ExitApp])%list
  /\ ~ refused (run (handleRoutes W ["a"; "b"]) sample_program)
  /\ ~ refused (run (handleHealthLog W []) sample_program).
Proof.
  intros W. repeat split; try reflexivity.
  - intros [diagnostic H]. vm_compute in H. discriminate H.
  - intros [diagnostic H]. vm_compute in H. discriminate H.
Qed.

Lemma selectServices_surplus W args keys p :
  (2 <= length args)%nat ->
  selectServices W args keys p = ([], p, Returned ([], [])).
Proof.
  intros Hlen. induction keys as [| key rest IH]; [reflexivity |].
  cbn [selectServices].
  destruct args as [| a [| b more]]; cbn [length] in Hlen; try lia.
  cbn [length Nat.eqb].
  rewrite bind_silent with (a := false) by reflexivity. exact IH.
Qed.

(** C3, amended: [message send] with an argument count other than two prints
    its diagnostic and shuts down without loading the file or sending
    anything; [nodes remove] with an argument count other than two begins by
    printing its diagnostic and scheduling the shutdown; both hold whether
    or not a configuration was loaded.  The check is not made by every
    handler: [routes] with two or more arguments, on a loaded configuration,
    prints no diagnostic, connects, enumerates the route keys and prints the
    empty object. *)
Theorem arity_checked_by_send_and_remove W args surplus p q :
  length args <> 2%nat ->
  loaded q = true ->
  (2 <= length surplus)%nat ->
  run (handleMessageSend W args) p
  = [Log "Invalid number of parameters"; ExitApp]
  /\ (exists rest,
        run (handleNodesRemove W args) p
        = Log "Missing parameter id" :: ExitApp :: rest)
  /\ run (handleRoutes W surplus) q
     = (connects q ++ [Keys "*:routes"; Log "{}"; ExitApp])%list.
Proof.
  intros Hlen Hcfg Hsurplus. apply Nat.eqb_neq in Hlen. split; [| split].
  - unfold run, handleMessageSend. rewrite Hlen. reflexivity.
  - unfold run, handleNodesRemove. rewrite Hlen. cbn [negb].
    unfold bind at 1. cbn [emit exitApp bind].
    destruct (bind (redisConnect W) _ p) as [[t p'] r].
    destruct r; simpl; eauto.
  - unfold run, handleRoutes.
    step (redisConnect_loaded W q Hcfg).
    unfold try_catch.
    step (getKeys_connected W "*:routes" q).
    rewrite (bind_silent _ _ _ _
               (selectServices_surplus W surplus _ (connected q) Hsurplus)).
    destruct (keys_reply W "*:routes"); reflexivity.
Qed.

Lemma arity_checked_by_send_and_remove_witness :
  let W := world (Some config_text) None (Replied []) [] None [] in
  run (handleMessageSend W ["send"]) initial
  = [Log "Invalid number of parameters"; ExitApp]
  /\ (exists rest,
        run (handleNodesRemove W ["send"]) initial
        = Log "Missing parameter id" :: ExitApp :: rest)
  /\ run (handleRoutes W ["auth"; "user"]) sample_program
     = (connects sample_program ++ [Keys "*:routes"; Log "{}"; ExitApp])%list.
Proof.
  intros W.
  refine (arity_checked_by_send_and_remove W ["send"] ["auth"; "user"]
            initial sample_program _ eq_refl _).
  - simpl. lia.
  - simpl. lia.
Defined.

(** [handleNodesRemove] has no [return] after its diagnostic, where
    [handleMessageSend] has one: with an argument count other than two the
    handler goes on to connect and to delete the field named by whatever its
    second argument is. *)
Lemma nodes_remove_goes_on W args p :
  length args <> 2%nat ->
  loaded p = true ->
  run (handleNodesRemove W args) p
  = ([Log "Missing parameter id"; ExitApp]
     ++ connects p
     ++ [Hdel (redisPreKey ++ ":nodes") (nth_error args 1);
         match hdel_reply W (redisPreKey ++ ":nodes") (nth_error args 1) with
         | Failed err => LogError (HostError err)
         | Replied _ =>
             Log ("nodes entry " ++ template (nth_error args 1) ++ " removed")
         end;
         ExitApp])%list.
Proof.
  intros Hlen Hcfg. apply Nat.eqb_neq in Hlen.
  unfold run, handleNodesRemove. rewrite Hlen. cbn [negb].
  unfold bind at 1. cbn [emit exitApp bind app].
  step (redisConnect_loaded W p Hcfg).
  step (store_connected _ p).
  destruct (hdel_reply W (redisPreKey ++ ":nodes") (nth_error args 1));
    reflexivity.
Qed.

Example nodes_remove_deletes_after_its_diagnostic :
  run (handleNodesRemove (world (Some config_text) None (Replied []) [] None [])
         ["remove"; "a"; "b"]) sample_program
  = [Log "Missing parameter id"; ExitApp;
     CreateClient (JString "6379") (JString "127.0.0.1"); Select (JString "15");
     Hdel "hydra:service:nodes" (Some "a"); Log "nodes entry a removed"; ExitApp].
Proof. reflexivity. Qed.

(** ** Entries of the health log *)

Lemma serialize_array_shown gap stepback items :
  serialize gap stepback (JArray (map shown items))
  = serialize gap stepback (JArray items).
Proof.
  cbn [serialize]. do 2 f_equal.
  induction items as [| x rest IH]; [reflexivity |].
  cbn [map]. rewrite IH. f_equal. destruct x; reflexivity.
Qed.

Lemma queueRanges_trace instances p :
  queueRanges instances p
  = (map (fun instance => Lrange instance 0 100) instances, p, Returned tt).
Proof.
  induction instances as [| instance rest IH]; [reflexivity |].
  cbn [queueRanges map]. unfold bind at 1. cbn [emit]. rewrite IH. reflexivity.
Qed.

(** C5, as stated, fails: of the entries [{"a":1}] and [not-json] the second
    is printed as [null], not as the string it was. *)
Lemma unparsable_entry_prints_null :
  let W := world (Some config_text) None
             (Replied ["hydra:service:auth:7f3a:health:log"]) [] None
             [[text_a1; "not-json"]] in
  JSON_parse W text_a1 = Some (JObject [("a", JNumber 1)])
  /\ JSON_parse W "not-json" = None
  /\ run (handleHealthLog W ["auth"]) sample_program
     = (connects sample_program
        ++ [Keys "*:auth:*:health:log"; Multi;
            Lrange "hydra:service:auth:7f3a:health:log" 0 100; Exec;
            Log (pretty (JArray [JObject [("a", JNumber 1)]; JNull]));
            ExitApp])%list
  /\ pretty (JArray [JObject [("a", JNumber 1)]; JNull])
     <> pretty (JArray [JObject [("a", JNumber 1)]; JString "not-json"]).
Proof.
  intros W. repeat split; try reflexivity.
  intros H. vm_compute in H. discriminate H.
Qed.

(** C5, amended: the printed array holds, in order, one element per entry of
    the first instance: the parsed value for an entry that parses as JSON and
    [undefined], printed as [null], for an entry that does not. *)
Theorem healthlog_entries W serviceName p instance instances first others :
  loaded p = true ->
  keys_reply W (healthPattern serviceName) = Replied (instance :: instances) ->
  exec_reply W (instance :: instances) = Replied (first :: others) ->
  run (handleHealthLog W [serviceName]) p
  = (connects p
     ++ [Keys (healthPattern serviceName); Multi]
     ++ map (fun i => Lrange i 0 100) (instance :: instances)
     ++ [Exec; Log (pretty (JArray (map (safeJSONParse W) first))); ExitApp])%list
  /\ (forall entry v,
        JSON_parse W entry = Some v -> safeJSONParse W entry = v)
  /\ (forall entry,
        JSON_parse W entry = None -> safeJSONParse W entry = JUndefined)
  /\ pretty (JArray (map (safeJSONParse W) first))
     = pretty (JArray (map shown (map (safeJSONParse W) first))).
Proof.
  intros Hcfg Hkeys Hexec. repeat split.
  - unfold run, handleHealthLog.
    step (redisConnect_loaded W p Hcfg).
    cbn [nth_error template]. fold (healthPattern serviceName).
    step (getKeys_connected W _ p).
    rewrite Hkeys. cbn [length Nat.eqb].
    step (store_connected Multi p).
    step (queueRanges_trace _ (connected p)).
    rewrite Hexec. reflexivity.
  - intros entry v H. unfold safeJSONParse. rewrite H. reflexivity.
  - intros entry H. unfold safeJSONParse. rewrite H. reflexivity.
  - unfold pretty, JSON_stringify. rewrite serialize_array_shown. reflexivity.
Qed.

Lemma healthlog_entries_witness :
  let W := world (Some config_text) None
             (Replied ["hydra:service:auth:7f3a:health:log"]) [] None
             [[text_a1; "not-json"]] in
  run (handleHealthLog W ["auth"]) sample_program
  = (connects sample_program
     ++ [Keys (healthPattern "auth"); Multi]
     ++ map (fun i => Lrange i 0 100) ["hydra:service:auth:7f3a:health:log"]
     ++ [Exec; Log (pretty (JArray (map (safeJSONParse W)
                                       [text_a1; "not-json"])));
         ExitApp])%list
  /\ (forall entry v,
        JSON_parse W entry = Some v -> safeJSONParse W entry = v)
  /\ (forall entry,
        JSON_parse W entry = None -> safeJSONParse W entry = JUndefined)
  /\ pretty (JArray (map (safeJSONParse W) [text_a1; "not-json"]))
     = pretty (JArray (map shown (map (safeJSONParse W)
                                    [text_a1; "not-json"]))).
Proof.
  intros W.
  exact (healthlog_entries W "auth" sample_program
           "hydra:service:auth:7f3a:health:log" [] [text_a1; "not-json"] []
           eq_refl eq_refl eq_refl).
Defined.

(** ** Substrings *)

Lemma prefix_iff needle :
  forall hay, prefix needle hay = true <-> exists after, hay = needle ++ after.
Proof.
  induction needle as [| a needle IH]; intros hay.
  - split; [intros _; exists hay; reflexivity | intros _; destruct hay; reflexivity].
  - destruct hay as [| b hay]; cbn [prefix].
    + split; [discriminate | intros [after H]; discriminate H].
    + destruct (ascii_dec a b) as [-> | Hneq].
      * rewrite IH. split; intros [after H]; exists after.
        -- cbn. now rewrite H.
        -- cbn in H. now inversion H.
      * split; [discriminate |].
        intros [after H]. cbn in H. inversion H. congruence.
Qed.

Lemma contains_empty needle : contains EmptyString needle <-> needle = EmptyString.
Proof.
  split.
  - intros [before [after H]].
    destruct before; [| discriminate H]. destruct needle; [reflexivity | discriminate H].
  - intros ->. exists EmptyString, EmptyString. reflexivity.
Qed.

Lemma contains_step c hay needle :
  contains (String c hay) needle
  <-> prefix needle (String c hay) = true \/ contains hay needle.
Proof.
  split.
  - intros [before [after H]]. destruct before as [| b before].
    + left. apply prefix_iff. exists after. exact H.
    + right. cbn in H. inversion H. exists before, after. reflexivity.
  - intros [H | [before [after H]]].
    + apply prefix_iff in H. destruct H as [after H].
      exists EmptyString, after. exact H.
    + exists (String c before), after. cbn. now rewrite H.
Qed.

Lemma indexOf_from_found needle :
  forall hay pos, (0 <= pos)%Z ->
    ((0 <= indexOf_from pos needle hay)%Z /\ contains hay needle)
    \/ (indexOf_from pos needle hay = (-1)%Z /\ ~ contains hay needle).
Proof.
  induction hay as [| c hay IH]; intros pos Hpos; cbn [indexOf_from].
  - destruct (prefix needle EmptyString) eqn:Hp.
    + left. split; [exact Hpos |]. apply prefix_iff in Hp. destruct Hp as [after H].
      exists EmptyString, after. exact H.
    + right. split; [reflexivity |]. intros Hc. apply contains_empty in Hc.
      subst needle. discriminate Hp.
  - destruct (prefix needle (String c hay)) eqn:Hp.
    + left. split; [exact Hpos |]. apply contains_step. now left.
    + destruct (IH (pos + 1)%Z ltac:(lia)) as [[Hge Hc] | [Heq Hc]].
      * left. split; [exact Hge |]. apply contains_step. now right.
      * right. split; [exact Heq |]. intros H. apply contains_step in H.
        destruct H as [H | H]; [congruence | contradiction].
Qed.

(** The test [hay.indexOf(needle) > -1] decides the substring relation. *)
Lemma indexOf_contains hay needle :
  (-1 <? indexOf hay needle)%Z = true <-> contains hay needle.
Proof.
  unfold indexOf.
  destruct (indexOf_from_found needle hay 0%Z ltac:(lia)) as [[Hge Hc] | [Heq Hc]].
  - split; [intros _; exact Hc | intros _; apply Z.ltb_lt; lia].
  - rewrite Heq. split; [discriminate | contradiction].
Qed.

Lemma contains_everything hay : contains hay EmptyString.
Proof. exists EmptyString, hay. reflexivity. Qed.

(** ** Enumeration order *)

Lemma insert_by_index_In {A : Type} (p x : string * A) sorted :
  In x (insert_by_index p sorted) <-> x = p \/ In x sorted.
Proof.
  induction sorted as [| q rest IH]; cbn [insert_by_index].
  - simpl. intuition congruence.
  - destruct (index_value (fst p) <=? index_value (fst q))%N; simpl.
    + intuition congruence.
    + rewrite IH. intuition congruence.
Qed.

Lemma sort_by_index_In {A : Type} (x : string * A) props :
  In x (sort_by_index props) <-> In x props.
Proof.
  induction props as [| p rest IH]; cbn [sort_by_index]; [reflexivity |].
  rewrite insert_by_index_In, IH. simpl. intuition congruence.
Qed.

Lemma enumerate_In {A : Type} (x : string * A) props :
  In x (enumerate props) <-> In x props.
Proof.
  unfold enumerate. rewrite in_app_iff, sort_by_index_In, !filter_In.
  destruct (is_index (fst x)); simpl; intuition congruence.
Qed.

Lemma filter_none {A : Type} (f : A -> bool) l :
  (forall x, In x l -> f x = false) -> filter f l = [].
Proof.
  induction l as [| x rest IH]; intros H; [reflexivity |].
  cbn [filter]. rewrite (H x (or_introl eq_refl)).
  apply IH. intros y Hy. apply H. now right.
Qed.

Lemma filter_all {A : Type} (f : A -> bool) l :
  (forall x, In x l -> f x = true) -> filter f l = l.
Proof.
  induction l as [| x rest IH]; intros H; [reflexivity |].
  cbn [filter]. rewrite (H x (or_introl eq_refl)). f_equal.
  apply IH. intros y Hy. apply H. now right.
Qed.

Lemma enumerate_plain {A : Type} (props : list (string * A)) :
  (forall p, In p props -> is_index (fst p) = false) ->
  enumerate props = props.
Proof.
  intros H. unfold enumerate.
  rewrite (filter_none _ _ H), filter_all; [reflexivity |].
  intros p Hin. now rewrite (H p Hin).
Qed.

(** ** Listing nodes *)

Lemma collectNodes_filtered W action nameFilter entries p :
  (forall entry, In entry entries -> service_node W (snd entry)) ->
  collectNodes W [action; nameFilter] entries p
  = ([], p,
     Returned (map (with_elapsed W)
                 (filter (name_matches nameFilter)
                    (map (fun entry => safeJSONParse W (snd entry)) entries)))).
Proof.
  induction entries as [| [id text] rest IH]; intros Hnodes; [reflexivity |].
  destruct (Hnodes (id, text) (or_introl eq_refl)) as [props [name [Hparse Hname]]].
  assert (Hitem : safeJSONParse W text = JObject props)
    by (unfold safeJSONParse; cbn [snd] in Hparse; now rewrite Hparse).
  assert (Hrest : forall entry, In entry rest -> service_node W (snd entry))
    by (intros entry Hin; apply Hnodes; now right).
  specialize (IH Hrest).
  cbn [collectNodes map filter snd]. rewrite Hitem.
  unfold name_matches at 1, serviceName_of.
  unfold listed, bind at 1. cbn [length Nat.eqb orb nth_error template].
  unfold bind at 1. cbn [js_get property]. rewrite Hname.
  cbn [ret js_indexOf bind app].
  destruct (-1 <? indexOf name nameFilter)%Z.
  - unfold bind. cbn [js_get js_set ret app property]. rewrite IH. reflexivity.
  - rewrite IH. reflexivity.
Qed.

(** C7: [nodes list <filter>] on a hash of service nodes prints the nodes
    whose [serviceName] contains the filter as a substring, character for
    character; the empty filter keeps every node and a filter that occurs in
    no name prints the empty array. *)
Theorem nodes_list_filters_by_substring W nameFilter data p :
  loaded p = true ->
  hgetall_reply W (redisPreKey ++ ":nodes") = Replied (Some data) ->
  (forall id text, In (id, text) data -> service_node W text) ->
  let listing := filter (name_matches nameFilter) (stored_nodes W data) in
  run (handleNodesList W ["list"; nameFilter]) p
  = (connects p
     ++ [Hgetall (redisPreKey ++ ":nodes");
         Log (pretty (JArray (map (with_elapsed W) listing))); ExitApp])%list
  /\ (forall node, In node (stored_nodes W data) ->
        (In node listing <-> contains (serviceName_of node) nameFilter))
  /\ (nameFilter = EmptyString -> listing = stored_nodes W data)
  /\ ((forall node, In node (stored_nodes W data) ->
         ~ contains (serviceName_of node) nameFilter) ->
      Log (pretty (JArray (map (with_elapsed W) listing))) = Log "[]").
Proof.
  intros Hcfg Hreply Hnodes listing. repeat split.
  - unfold run, handleNodesList.
    step (redisConnect_loaded W p Hcfg).
    step (store_connected _ p).
    rewrite Hreply.
    assert (Hentries : forall entry, In entry (enumerate data) ->
                                     service_node W (snd entry)).
    { intros [id text] Hin. apply (proj1 (enumerate_In _ _)) in Hin.
      exact (Hnodes id text Hin). }
    unfold bind.
    rewrite (collectNodes_filtered W "list" nameFilter _ (connected p) Hentries).
    reflexivity.
  - intros Hin. apply filter_In in Hin. apply indexOf_contains, Hin.
  - intros Hc. apply filter_In. split; [assumption |].
    apply indexOf_contains, Hc.
  - intros ->. subst listing.
    induction (stored_nodes W data) as [| node rest IH]; [reflexivity |].
    cbn [filter]. unfold name_matches at 1.
    rewrite (proj2 (indexOf_contains _ _) (contains_everything _)).
    now rewrite IH.
  - intros Hnone. subst listing.
    assert (Hempty : filter (name_matches nameFilter) (stored_nodes W data) = []).
    { induction (stored_nodes W data) as [| node rest IH]; [reflexivity |].
      cbn [filter]. destruct (name_matches nameFilter node) eqn:Hm.
      - exfalso. apply (Hnone node (or_introl eq_refl)).
        apply indexOf_contains, Hm.
      - apply IH. intros other Hin. apply Hnone. now right. }
    rewrite Hempty. reflexivity.
Qed.

Lemma nodes_list_filters_by_substring_witness :
  let W := world (Some config_text) None (Replied []) []
             (Some [("7f3a", node_text "auth-service" "t1");
                    ("9c1e", node_text "user-service" "t2");
                    ("b220", node_text "Auth" "t3")]) [] in
  run (handleNodesList W ["list"; "auth"]) sample_program
  = (connects sample_program
     ++ [Hgetall "hydra:service:nodes";
         Log (pretty (JArray
                [JObject [("serviceName", JString "auth-service");
                          ("updatedOn", JString "t1");
                          ("elapsed", JNumber 5)]]));
         ExitApp])%list.
Proof.
  intros W.
  refine (proj1 (nodes_list_filters_by_substring W "auth"
                   [("7f3a", node_text "auth-service" "t1");
                    ("9c1e", node_text "user-service" "t2");
                    ("b220", node_text "Auth" "t3")]
                   sample_program eq_refl eq_refl _)).
  intros id text [H | [H | [H | []]]]; inversion H; subst.
  - exists [("serviceName", JString "auth-service"); ("updatedOn", JString "t1")],
      "auth-service". split; reflexivity.
  - exists [("serviceName", JString "user-service"); ("updatedOn", JString "t2")],
      "user-service". split; reflexivity.
  - exists [("serviceName", JString "Auth"); ("updatedOn", JString "t3")],
      "Auth". split; reflexivity.
Defined.

(** ** Nodes that are not JSON *)

Lemma quiet_ret {A : Type} (a : A) : quiet (ret a).
Proof. intros p. exists (Returned a). split; [reflexivity | exact I]. Qed.

Lemma quiet_throw {A : Type} : quiet (@throw A TypeError).
Proof. intros p. exists (Thrown TypeError). split; reflexivity. Qed.

Lemma quiet_bind {A B : Type} (m : M A) (f : A -> M B) :
  quiet m -> (forall a, quiet (f a)) -> quiet (bind m f).
Proof.
  intros Hm Hf p. destruct (Hm p) as [[a | e] [Hrun He]].
  - destruct (Hf a p) as [r [Hrun' Hr]]. exists r. split; [| exact Hr].
    rewrite (bind_silent _ _ _ _ Hrun). exact Hrun'.
  - exists (Thrown e). split; [| exact He].
    apply (bind_thrown _ _ _ _ _ _ Hrun).
Qed.

Lemma quiet_js_get v k : quiet (js_get v k).
Proof. destruct v; first [apply quiet_throw | apply quiet_ret]. Qed.

Lemma quiet_js_set v k x : quiet (js_set v k x).
Proof. destruct v; first [apply quiet_throw | apply quiet_ret]. Qed.

Lemma quiet_js_indexOf v needle : quiet (js_indexOf v needle).
Proof. destruct v; first [apply quiet_throw | apply quiet_ret]. Qed.

Lemma quiet_listed args item : quiet (listed args item).
Proof.
  unfold listed.
  destruct (Nat.eqb (length args) 0 || Nat.eqb (length args) 1)%bool;
    [apply quiet_ret |].
  destruct (Nat.eqb (length args) 2); [| apply quiet_ret].
  apply quiet_bind; [apply quiet_js_get | intros name].
  apply quiet_bind; [apply quiet_js_indexOf | intros position].
  apply quiet_ret.
Qed.

Lemma quiet_collectNodes W args entries : quiet (collectNodes W args entries).
Proof.
  induction entries as [| [entry text] rest IH]; [apply quiet_ret |].
  cbn [collectNodes].
  apply quiet_bind; [apply quiet_listed | intros [|]]; [| exact IH].
  apply quiet_bind; [apply quiet_js_get | intros updatedOn].
  apply quiet_bind; [apply quiet_js_set | intros item].
  apply quiet_bind; [exact IH | intros nodes]. apply quiet_ret.
Qed.

Lemma listed_undefined args p :
  (length args <= 2)%nat ->
  listed args JUndefined p = ([], p, Returned true)
  \/ listed args JUndefined p = ([], p, Thrown TypeError).
Proof.
  intros Hlen. unfold listed.
  destruct args as [| a [| b [| c rest]]]; cbn [length Nat.eqb orb].
  - now left.
  - now left.
  - now right.
  - cbn [length] in Hlen. lia.
Qed.

Lemma collectNodes_throws W args entries p :
  (length args <= 2)%nat ->
  (exists id text, In (id, text) entries /\ JSON_parse W text = None) ->
  collectNodes W args entries p = ([], p, Thrown TypeError).
Proof.
  intros Hlen. induction entries as [| [entry text] rest IH];
    intros [id [bad [Hin Hbad]]]; [destruct Hin |].
  cbn [collectNodes].
  destruct Hin as [Heq | Hin].
  - inversion Heq; subst. unfold safeJSONParse. rewrite Hbad.
    destruct (listed_undefined args p Hlen) as [H | H].
    + rewrite (bind_silent _ _ _ _ H). reflexivity.
    + apply (bind_thrown _ _ _ _ _ _ H).
  - assert (Hrest : collectNodes W args rest p = ([], p, Thrown TypeError))
      by (apply IH; exists id, bad; split; assumption).
    destruct (quiet_listed args (safeJSONParse W text) p) as [[[|] | e] [Hrun He]].
    + rewrite (bind_silent _ _ _ _ Hrun).
      destruct (quiet_js_get (safeJSONParse W text) "updatedOn" p)
        as [[updatedOn | e] [Hget He']].
      * rewrite (bind_silent _ _ _ _ Hget).
        destruct (quiet_js_set (safeJSONParse W text) "elapsed"
                    (elapsedSince W (now W) updatedOn) p)
          as [[item | e] [Hset He'']].
        -- rewrite (bind_silent _ _ _ _ Hset).
           apply (bind_thrown _ _ _ _ _ _ Hrest).
        -- subst e. apply (bind_thrown _ _ _ _ _ _ Hset).
      * subst e. apply (bind_thrown _ _ _ _ _ _ Hget).
    + rewrite (bind_silent _ _ _ _ Hrun). exact Hrest.
    + subst e. apply (bind_thrown _ _ _ _ _ _ Hrun).
Qed.

(** C10, as stated, fails: [nodes list a b] lists nothing, so it never looks
    into a node and prints [[]] over a hash whose value is not JSON. *)
Lemma extra_argument_skips_the_nodes :
  let W := world (Some config_text) None (Replied []) []
             (Some [("7f3a", "not-json")]) [] in
  JSON_parse W "not-json" = None
  /\ run (handleNodesList W ["list"; "a"; "b"]) sample_program
     = (connects sample_program
        ++ [Hgetall "hydra:service:nodes"; Log "[]"; ExitApp])%list
  /\ ~ In (Escapes TypeError)
         (run (handleNodesList W ["list"; "a"; "b"]) sample_program).
Proof.
  intros W. repeat split.
  intros H. vm_compute in H.
  repeat (destruct H as [H | H]; [discriminate H |]). exact H.
Qed.

Lemma collectNodes_surplus W args entries p :
  (3 <= length args)%nat ->
  collectNodes W args entries p = ([], p, Returned []).
Proof.
  intros Hlen. induction entries as [| [entry text] rest IH]; [reflexivity |].
  cbn [collectNodes].
  assert (Hskip : listed args (safeJSONParse W text) p = ([], p, Returned false)).
  { unfold listed.
    destruct args as [| a [| b [| c more]]]; cbn [length] in Hlen; try lia.
    reflexivity. }
  rewrite (bind_silent _ _ _ _ Hskip). exact IH.
Qed.

(** C10, amended: invoked with at most two arguments ([nodes], [nodes list],
    [nodes list <filter>]), the handler throws a [TypeError] from inside the
    loop, printing nothing and skipping the shutdown, for every stored hash
    in which some value is not valid JSON.  Invoked with three or more
    arguments it looks into no node: whatever the stored hash holds, it
    prints [[]] and shuts down. *)
Theorem nodes_list_throws_on_bad_node W args surplus data p :
  loaded p = true ->
  hgetall_reply W (redisPreKey ++ ":nodes") = Replied (Some data) ->
  (length args <= 2)%nat ->
  (3 <= length surplus)%nat ->
  ((exists id text, In (id, text) data /\ JSON_parse W text = None) ->
   run (handleNodesList W args) p
   = (connects p ++ [Hgetall (redisPreKey ++ ":nodes"); Escapes TypeError])%list)
  /\ run (handleNodesList W surplus) p
     = (connects p
        ++ [Hgetall (redisPreKey ++ ":nodes"); Log "[]"; ExitApp])%list.
Proof.
  intros Hcfg Hreply Hlen Hsurplus. split.
  - intros [id [text [Hin Hbad]]].
    unfold run, handleNodesList.
    step (redisConnect_loaded W p Hcfg).
    step (store_connected _ p).
    rewrite Hreply. unfold bind.
    rewrite (collectNodes_throws W args (enumerate data) (connected p) Hlen).
    + reflexivity.
    + exists id, text. split; [apply enumerate_In, Hin | exact Hbad].
  - unfold run, handleNodesList.
    step (redisConnect_loaded W p Hcfg).
    step (store_connected _ p).
    rewrite Hreply. unfold bind.
    rewrite (collectNodes_surplus W surplus (enumerate data) (connected p)
               Hsurplus).
    reflexivity.
Qed.

Lemma nodes_list_throws_on_bad_node_witness :
  let W := world (Some config_text) None (Replied []) []
             (Some [("7f3a", node_text "auth-service" "t1");
                    ("9c1e", "not-json")]) [] in
  run (handleNodesList W ["list"; "auth"]) sample_program
  = (connects sample_program
     ++ [Hgetall (redisPreKey ++ ":nodes"); Escapes TypeError])%list
  /\ run (handleNodesList W ["list"; "auth"; "user"]) sample_program
     = (connects sample_program
        ++ [Hgetall (redisPreKey ++ ":nodes"); Log "[]"; ExitApp])%list.
Proof.
  intros W.
  refine ((fun H => conj (proj1 H _) (proj2 H))
            (nodes_list_throws_on_bad_node W ["list"; "auth"]
               ["list"; "auth"; "user"]
               [("7f3a", node_text "auth-service" "t1"); ("9c1e", "not-json")]
               sample_program eq_refl eq_refl _ _)).
  - exists "9c1e", "not-json". split; [right; left; reflexivity | reflexivity].
  - simpl. lia.
  - simpl. lia.
Defined.

(** ** Assigning properties *)

Lemma obj_lookup_has_key {A : Type} (k : string) (props : list (string * A)) :
  has_key k props = match obj_lookup k props with Some _ => true | None => false end.
Proof.
  unfold has_key. induction props as [| [k' v] rest IH]; [reflexivity |].
  cbn [map fst existsb obj_lookup]. destruct (String.eqb k k'); [reflexivity | exact IH].
Qed.

Lemma obj_replace_keys {A : Type} (k : string) (v : A) props :
  map fst (obj_replace k v props) = map fst props.
Proof.
  induction props as [| [k' v'] rest IH]; [reflexivity |].
  cbn [obj_replace]. destruct (String.eqb k k'); cbn [map fst]; [reflexivity |].
  now rewrite IH.
Qed.

Lemma obj_replace_lookup {A : Type} (k k' : string) (v : A) props :
  obj_lookup k (obj_replace k' v props)
  = if String.eqb k k'
    then match obj_lookup k' props with Some _ => Some v | None => None end
    else obj_lookup k props.
Proof.
  induction props as [| [k0 v0] rest IH]; cbn [obj_replace obj_lookup].
  - destruct (String.eqb k k'); reflexivity.
  - destruct (String.eqb_spec k' k0) as [-> | Hneq]; cbn [obj_lookup].
    + destruct (String.eqb k k0); reflexivity.
    + rewrite IH. destruct (String.eqb_spec k k') as [-> | Hneq'].
      * apply String.eqb_neq in Hneq. rewrite Hneq. reflexivity.
      * reflexivity.
Qed.

Lemma obj_lookup_app {A : Type} (k : string) (props more : list (string * A)) :
  obj_lookup k (props ++ more)
  = match obj_lookup k props with
    | Some v => Some v
    | None => obj_lookup k more
    end.
Proof.
  induction props as [| [k' v'] rest IH]; [reflexivity |].
  cbn [app obj_lookup]. destruct (String.eqb k k'); [reflexivity | exact IH].
Qed.

(** The own keys after [obj[k] = v]. *)
Lemma obj_assign_keys {A : Type} (k : string) (v : A) props :
  map fst (obj_assign k v props)
  = if (has_key k props || negb (ordinary k))%bool then map fst props
    else (map fst props ++ [k])%list.
Proof.
  unfold obj_assign, ordinary. rewrite obj_lookup_has_key.
  destruct (obj_lookup k props).
  - apply obj_replace_keys.
  - cbn [orb]. destruct (String.eqb k "__proto__"); cbn [negb]; [reflexivity |].
    rewrite map_app. reflexivity.
Qed.

(** The own properties after [obj[k'] = v]. *)
Lemma obj_assign_lookup {A : Type} (k k' : string) (v : A) props :
  obj_lookup k (obj_assign k' v props)
  = if (String.eqb k k' && (has_key k' props || ordinary k'))%bool then Some v
    else obj_lookup k props.
Proof.
  unfold obj_assign, ordinary. rewrite obj_lookup_has_key.
  destruct (obj_lookup k' props) eqn:Hk'.
  - rewrite obj_replace_lookup, Hk'. cbn [orb]. rewrite andb_true_r. reflexivity.
  - cbn [orb]. destruct (String.eqb k' "__proto__"); cbn [negb].
    + rewrite andb_false_r. reflexivity.
    + rewrite andb_true_r, obj_lookup_app. cbn [obj_lookup].
      destruct (String.eqb_spec k k') as [-> | Hneq].
      * rewrite Hk'. reflexivity.
      * destruct (obj_lookup k props); reflexivity.
Qed.

Lemma first_occurrences_In name names :
  In name (first_occurrences names) <-> In name names.
Proof.
  induction names as [| n rest IH]; [reflexivity |].
  cbn [first_occurrences In]. rewrite filter_In, IH.
  destruct (String.eqb_spec name n) as [-> | Hneq]; cbn [negb].
  - intuition.
  - intuition congruence.
Qed.

Lemma filter_filter {A : Type} (f g : A -> bool) l :
  filter f (filter g l) = filter (fun x => g x && f x)%bool l.
Proof.
  induction l as [| x rest IH]; [reflexivity |].
  cbn [filter]. destruct (g x); cbn [filter andb]; [| exact IH].
  destruct (f x); now rewrite IH.
Qed.

Section Assignments.

Variable value_of : string -> value.

Lemma assign_all_cons name names resObj :
  assign_all value_of (name :: names) resObj
  = assign_all value_of names (obj_assign name (value_of name) resObj).
Proof. reflexivity. Qed.

Lemma assign_all_keys names :
  forall resObj,
    map fst (assign_all value_of names resObj)
    = (map fst resObj
       ++ filter (fun name => negb (has_key name resObj))
            (first_occurrences (filter ordinary names)))%list.
Proof.
  induction names as [| name rest IH]; intros resObj.
  - cbn. now rewrite app_nil_r.
  - rewrite assign_all_cons, IH, obj_assign_keys. cbn [filter].
    destruct (ordinary name) eqn:Hord; cbn [negb orb first_occurrences filter].
    + rewrite orb_false_r. destruct (has_key name resObj) eqn:Hkey; cbn [negb].
      * f_equal. rewrite filter_filter. apply filter_ext_in. intros other _.
        unfold has_key. rewrite obj_assign_keys, Hkey. cbn [orb].
        fold (has_key other resObj).
        destruct (String.eqb_spec other name) as [-> | _]; cbn [negb andb];
          [now rewrite Hkey | reflexivity].
      * rewrite <- app_assoc. cbn [app]. do 2 f_equal.
        rewrite filter_filter. apply filter_ext_in. intros other _.
        unfold has_key. rewrite obj_assign_keys, Hkey, Hord. cbn [orb negb].
        rewrite existsb_app. cbn [existsb].
        rewrite orb_false_r, negb_orb. apply andb_comm.
    + rewrite orb_true_r. f_equal. apply filter_ext_in. intros other _.
      unfold has_key. rewrite obj_assign_keys, Hord, orb_true_r. reflexivity.
Qed.

Lemma assign_all_lookup k names :
  forall resObj,
    obj_lookup "__proto__" resObj = None ->
    obj_lookup k (assign_all value_of names resObj)
    = if (existsb (String.eqb k) names && ordinary k)%bool then Some (value_of k)
      else obj_lookup k resObj.
Proof.
  induction names as [| name rest IH]; intros resObj Hproto; [reflexivity |].
  rewrite assign_all_cons. cbn [existsb].
  assert (Hproto' : obj_lookup "__proto__"
                      (obj_assign name (value_of name) resObj) = None).
  { rewrite obj_assign_lookup, Hproto.
    destruct (String.eqb_spec "__proto__" name) as [<- | _]; [| reflexivity].
    rewrite obj_lookup_has_key, Hproto. reflexivity. }
  rewrite (IH _ Hproto'), obj_assign_lookup. clear IH.
  destruct (String.eqb_spec k name) as [<- | Hneq]; cbn [orb andb];
    [| reflexivity].
  destruct (ordinary k) eqn:Hord.
  - rewrite orb_true_r, !andb_true_r. destruct (existsb _ rest); reflexivity.
  - rewrite orb_false_r, !andb_false_r, obj_lookup_has_key.
    unfold ordinary in Hord. apply negb_false_iff, String.eqb_eq in Hord.
    subst k. rewrite Hproto. reflexivity.
Qed.

End Assignments.

(** ** Enumerating the keys of an object *)

Lemma insert_by_index_keys_sorted {A : Type} (p : string * A) sorted :
  Sorted index_le (map fst sorted) ->
  Sorted index_le (map fst (insert_by_index p sorted)).
Proof.
  induction sorted as [| q rest IH]; intros Hsorted; cbn [insert_by_index map].
  - constructor; constructor.
  - destruct (index_value (fst p) <=? index_value (fst q))%N eqn:Hle.
    + cbn [map]. constructor; [exact Hsorted |].
      constructor. apply N.leb_le, Hle.
    + cbn [map] in *. inversion Hsorted as [| ? ? Hrest Hhead]; subst.
      constructor; [apply IH, Hrest |].
      apply N.leb_gt in Hle.
      destruct rest as [| r rest]; cbn [insert_by_index map].
      * constructor. unfold index_le. lia.
      * destruct (index_value (fst p) <=? index_value (fst r))%N;
          cbn [map]; constructor.
        -- unfold index_le. lia.
        -- inversion Hhead; assumption.
Qed.

Lemma sort_by_index_keys_sorted {A : Type} (props : list (string * A)) :
  Sorted index_le (map fst (sort_by_index props)).
Proof.
  induction props as [| p rest IH]; cbn [sort_by_index].
  - constructor.
  - apply insert_by_index_keys_sorted, IH.
Qed.

Lemma filter_keys {A : Type} (f : string -> bool) (props : list (string * A)) :
  map fst (filter (fun p => f (fst p)) props) = filter f (map fst props).
Proof.
  induction props as [| p rest IH]; [reflexivity |].
  cbn [filter map]. destruct (f (fst p)); cbn [map]; now rewrite IH.
Qed.

Lemma insert_by_index_perm {A : Type} (p : string * A) sorted :
  Permutation (insert_by_index p sorted) (p :: sorted).
Proof.
  induction sorted as [| q rest IH]; cbn [insert_by_index].
  - apply Permutation_refl.
  - destruct (index_value (fst p) <=? index_value (fst q))%N.
    + apply Permutation_refl.
    + apply perm_trans with (q :: p :: rest).
      * apply perm_skip, IH.
      * apply perm_swap.
Qed.

Lemma sort_by_index_perm {A : Type} (props : list (string * A)) :
  Permutation (sort_by_index props) props.
Proof.
  induction props as [| p rest IH]; cbn [sort_by_index].
  - apply perm_nil.
  - apply perm_trans with (p :: sort_by_index rest).
    + apply insert_by_index_perm.
    + apply perm_skip, IH.
Qed.

(** The keys of an object as [Object.keys] and [JSON.stringify] visit them:
    its array indices in ascending order, then its other keys as created. *)
Lemma own_keys_order {A : Type} (props : list (string * A)) :
  exists indices,
    own_keys props
    = (indices ++ filter (fun k => negb (is_index k)) (map fst props))%list
    /\ Sorted index_le indices
    /\ Permutation indices (filter is_index (map fst props)).
Proof.
  exists (map fst (sort_by_index (filter (fun p => is_index (fst p)) props))).
  split; [| split].
  - unfold own_keys, enumerate. rewrite map_app. f_equal.
    apply (filter_keys (fun k => negb (is_index k))).
  - apply sort_by_index_keys_sorted.
  - rewrite <- (filter_keys is_index). apply Permutation_map, sort_by_index_perm.
Qed.

Lemma own_keys_plain {A : Type} (props : list (string * A)) :
  (forall k, In k (map fst props) -> is_index k = false) ->
  own_keys props = map fst props.
Proof.
  intros H. unfold own_keys. rewrite enumerate_plain; [reflexivity |].
  intros p Hin. apply H, in_map, Hin.
Qed.

(** ** Routes *)

Lemma getRoutes_connected W serviceName p :
  getRoutes W serviceName (connected p)
  = ([Smembers (routesKey serviceName)], connected p,
     Returned (settled (smembers_reply W (routesKey serviceName)))).
Proof. reflexivity. Qed.

Lemma selectServices_selected W nameFilter keys p :
  (forall key, In key keys -> extracted key <> None) ->
  selectServices W [nameFilter] keys (connected p)
  = (map (fun name => Smembers (routesKey (Some name)))
       (selected nameFilter keys),
     connected p,
     Returned (map Some (selected nameFilter keys),
               map (fun name =>
                      settled (smembers_reply W (routesKey (Some name))))
                 (selected nameFilter keys))).
Proof.
  induction keys as [| key rest IH]; intros Hkeys; [reflexivity |].
  assert (Hrest : forall k, In k rest -> extracted k <> None)
    by (intros k Hin; apply Hkeys; now right).
  specialize (IH Hrest).
  cbn [selectServices length Nat.eqb].
  change (nth_error (split ":" key) 2) with (extracted key).
  unfold selected, discovered. cbn [flat_map].
  destruct (extracted key) as [name |] eqn:Hname;
    [| exfalso; apply (Hkeys key (or_introl eq_refl)), Hname].
  cbn [app filter nth_error template]. fold (discovered rest).
  change (filter (fun n => (-1 <? indexOf n nameFilter)%Z) (discovered rest))
    with (selected nameFilter rest).
  rewrite bind_silent with (a := (-1 <? indexOf name nameFilter)%Z)
    by reflexivity.
  destruct (-1 <? indexOf name nameFilter)%Z.
  - step (getRoutes_connected W (Some name) p).
    rewrite (bind_returned _ _ _ _ _ _ IH). unfold ret. cbn [map app fst snd].
    rewrite app_nil_r. reflexivity.
  - exact IH.
Qed.

Lemma Promise_all_replies W routes_of names p :
  (forall name, In name names ->
     smembers_reply W (routesKey (Some name)) = Replied (routes_of name)) ->
  Promise_all
    (map (fun name => settled (smembers_reply W (routesKey (Some name)))) names)
    p
  = ([], p, Returned (map routes_of names)).
Proof.
  induction names as [| name rest IH]; intros Hsets; [reflexivity |].
  cbn [map Promise_all]. rewrite (Hsets name (or_introl eq_refl)).
  rewrite bind_silent with (a := routes_of name) by reflexivity.
  rewrite (bind_silent _ _ _ _ (IH (fun n Hin => Hsets n (or_intror Hin)))).
  reflexivity.
Qed.

Lemma assemble_assign_all routes_of names :
  forall before resObj,
    assemble (before ++ map Some names) (length before)
      (map routes_of names) resObj
    = assign_all (route_set routes_of) names resObj.
Proof.
  induction names as [| name rest IH]; intros before resObj; [reflexivity |].
  cbn [map assemble]. rewrite assign_all_cons.
  rewrite nth_error_app2, Nat.sub_diag by lia. cbn [nth_error template].
  specialize (IH (before ++ [Some name])%list).
  rewrite <- app_assoc, length_app in IH. cbn [app length] in IH.
  rewrite Nat.add_1_r in IH. apply IH.
Qed.

Lemma handleRoutes_trace W nameFilter keys routes_of p :
  loaded p = true ->
  keys_reply W "*:routes" = Replied keys ->
  (forall key, In key keys -> extracted key <> None) ->
  (forall name, In name (selected nameFilter keys) ->
     smembers_reply W (routesKey (Some name)) = Replied (routes_of name)) ->
  run (handleRoutes W [nameFilter]) p
  = (connects p ++ [Keys "*:routes"]
     ++ map (fun name => Smembers (routesKey (Some name)))
          (selected nameFilter keys)
     ++ [Log (pretty (JObject (assign_all (route_set routes_of)
                                 (selected nameFilter keys) [])));
         ExitApp])%list.
Proof.
  intros Hcfg Hkeys Hshape Hsets.
  pose proof (assemble_assign_all routes_of (selected nameFilter keys) [] [])
    as Hassemble.
  cbn [app length] in Hassemble.
  unfold run, handleRoutes.
  step (redisConnect_loaded W p Hcfg).
  unfold try_catch.
  rewrite (bind_returned _ _ _ _ _ _ (getKeys_connected W _ p)), Hkeys.
  step (selectServices_selected W nameFilter keys p Hshape).
  cbn [fst snd].
  rewrite (bind_silent _ _ _ _
             (Promise_all_replies W routes_of _ (connected p) Hsets)).
  rewrite Hassemble. reflexivity.
Qed.

(** C8, as stated, fails: the services [2], [__proto__] and [1], discovered
    in that order and all kept by the filter, come out as an object whose
    keys are [1] then [2]; the third service is not in it. *)
Lemma routes_object_reorders_keys :
  let W := world (Some config_text) None
             (Replied ["hydra:service:2:service:routes";
                       "hydra:service:__proto__:service:routes";
                       "hydra:service:1:service:routes"])
             [("hydra:service:2:service:routes", ["[get]/two"]);
              ("hydra:service:__proto__:service:routes", ["[get]/zero"]);
              ("hydra:service:1:service:routes", ["[get]/one"])]
             None [] in
  let resObj := [("2", JArray [JString "[get]/two"]);
                 ("1", JArray [JString "[get]/one"])] in
  selected EmptyString ["hydra:service:2:service:routes";
                        "hydra:service:__proto__:service:routes";
                        "hydra:service:1:service:routes"]
  = ["2"; "__proto__"; "1"]
  /\ run (handleRoutes W [EmptyString]) sample_program
     = (connects sample_program
        ++ [Keys "*:routes";
            Smembers "hydra:service:2:service:routes";
            Smembers "hydra:service:__proto__:service:routes";
            Smembers "hydra:service:1:service:routes";
            Log (pretty (JObject resObj)); ExitApp])%list
  /\ own_keys resObj = ["1"; "2"]
  /\ obj_lookup "__proto__" resObj = None
  /\ pretty (JObject resObj)
     = join newline
         ["{";
          "  " ++ quote "1" ++ ": [";
          "    " ++ quote "[get]/one";
          "  ],";
          "  " ++ quote "2" ++ ": [";
          "    " ++ quote "[get]/two";
          "  ]";
          "}"].
Proof. intros W resObj. repeat split. Qed.

(** C8, amended: for route keys that all have a third segment and route sets
    that are all read, the printed object holds exactly the services whose
    extracted name contains the filter, a service named [__proto__] apart,
    each with its route set.  Its keys are listed with the names that are
    array indices first, in ascending numeric order, followed by the other
    names in the order they were first discovered; when no kept name is an
    array index the whole order is that of discovery. *)
Theorem routes_lists_selected_services W nameFilter keys routes_of p :
  loaded p = true ->
  keys_reply W "*:routes" = Replied keys ->
  (forall key, In key keys -> extracted key <> None) ->
  (forall name, In name (selected nameFilter keys) ->
     smembers_reply W (routesKey (Some name)) = Replied (routes_of name)) ->
  exists resObj indices,
    run (handleRoutes W [nameFilter]) p
    = (connects p ++ [Keys "*:routes"]
       ++ map (fun name => Smembers (routesKey (Some name)))
            (selected nameFilter keys)
       ++ [Log (pretty (JObject resObj)); ExitApp])%list
    /\ (forall name,
          In name (selected nameFilter keys)
          <-> In name (discovered keys) /\ contains name nameFilter)
    /\ (forall name,
          obj_lookup name resObj
          = if (existsb (String.eqb name) (selected nameFilter keys)
                && ordinary name)%bool
            then Some (route_set routes_of name)
            else None)
    /\ map fst resObj
       = first_occurrences (filter ordinary (selected nameFilter keys))
    /\ own_keys resObj
       = (indices ++ filter (fun k => negb (is_index k)) (map fst resObj))%list
    /\ Sorted index_le indices
    /\ Permutation indices (filter is_index (map fst resObj))
    /\ ((forall name, In name (selected nameFilter keys) ->
           is_index name = false) ->
        own_keys resObj
        = first_occurrences (filter ordinary (selected nameFilter keys))).
Proof.
  intros Hcfg Hkeys Hshape Hsets.
  set (resObj := assign_all (route_set routes_of) (selected nameFilter keys) []).
  assert (Hcreated : map fst resObj
                     = first_occurrences
                         (filter ordinary (selected nameFilter keys))).
  { unfold resObj. rewrite assign_all_keys. cbn [map app].
    generalize (first_occurrences (filter ordinary (selected nameFilter keys))).
    intros names. induction names as [| name rest IH]; [reflexivity |].
    cbn [filter]. unfold has_key at 1. cbn [map existsb negb]. now rewrite IH. }
  destruct (own_keys_order resObj) as [indices [Horder [Hsorted Hindices]]].
  exists resObj, indices.
  split; [apply handleRoutes_trace; assumption |].
  split; [intros name; unfold selected;
          rewrite filter_In, indexOf_contains; reflexivity |].
  split; [intros name; unfold resObj; now rewrite assign_all_lookup |].
  split; [exact Hcreated |].
  split; [exact Horder |].
  split; [exact Hsorted |].
  split; [exact Hindices |].
  intros Hplain. rewrite <- Hcreated. apply own_keys_plain.
  intros k Hin. rewrite Hcreated in Hin.
  apply first_occurrences_In, filter_In in Hin. apply Hplain, Hin.
Qed.

Lemma routes_lists_selected_services_witness :
  let keys := ["hydra:service:auth:service:routes";
               "hydra:service:user:service:routes";
               "hydra:service:mail:service:routes"] in
  let W := world (Some config_text) None (Replied keys)
             [("hydra:service:user:service:routes", ["[get]/v1/user"])]
             None [] in
  let routes_of := fun _ : string => ["[get]/v1/user"] in
  exists resObj indices,
    run (handleRoutes W ["user"]) sample_program
    = (connects sample_program ++ [Keys "*:routes"]
       ++ map (fun name => Smembers (routesKey (Some name)))
            (selected "user" keys)
       ++ [Log (pretty (JObject resObj)); ExitApp])%list
    /\ (forall name,
          In name (selected "user" keys)
          <-> In name (discovered keys) /\ contains name "user")
    /\ (forall name,
          obj_lookup name resObj
          = if (existsb (String.eqb name) (selected "user" keys)
                && ordinary name)%bool
            then Some (route_set routes_of name)
            else None)
    /\ map fst resObj
       = first_occurrences (filter ordinary (selected "user" keys))
    /\ own_keys resObj
       = (indices ++ filter (fun k => negb (is_index k)) (map fst resObj))%list
    /\ Sorted index_le indices
    /\ Permutation indices (filter is_index (map fst resObj))
    /\ ((forall name, In name (selected "user" keys) -> is_index name = false) ->
        own_keys resObj
        = first_occurrences (filter ordinary (selected "user" keys))).
Proof.
  intros keys W routes_of.
  refine (routes_lists_selected_services W "user" keys routes_of sample_program
            eq_refl eq_refl _ _).
  - intros key [H | [H | [H | []]]]; subst key; discriminate.
  - intros name [H | []]. subst name. reflexivity.
Defined.

Example routes_keeps_only_the_match :
  run (handleRoutes
         (world (Some config_text) None
            (Replied ["hydra:service:auth:service:routes";
                      "hydra:service:user:service:routes";
                      "hydra:service:mail:service:routes"])
            [("hydra:service:user:service:routes", ["[get]/v1/user"])]
            None [])
         ["user"]) sample_program
  = (connects sample_program
     ++ [Keys "*:routes"; Smembers "hydra:service:user:service:routes";
         Log (join newline ["{";
                            ("  " ++ quote "user" ++ ": [")%string;
                            ("    " ++ quote "[get]/v1/user")%string;
                            "  ]";
                            "}"]);
         ExitApp])%list.
Proof. reflexivity. Qed.

(** * Further properties *)

(** ** The dispatcher *)

Ltac next_char :=
  match goal with
  | |- context [match ?s with EmptyString => _ | String _ _ => _ end] =>
      is_var s; destruct s as [| [[] [] [] [] [] [] [] []] s]; try reflexivity
  end.

Lemma main_dispatch W command args :
  main W (command :: args) = (loadConfig W ;; dispatch W command args).
Proof.
  unfold main, dispatch. f_equal.
  destruct (nth_error args 0) as [sub |]; [| reflexivity].
  repeat next_char.
Qed.

Lemma loadConfig_outcome W :
  exists t cfg,
    loadConfig W initial
    = (t, {| configData := cfg; redisdb := None |}, Returned tt)
    /\ ((cfg = JNull /\ (t = [] \/ exists conf, t = [HydraInit conf]))
        \/ exists data,
             config_file W = Some data
             /\ JSON_parse W data = Some cfg
             /\ loaded {| configData := cfg; redisdb := None |} = true
             /\ hydra_init W (hydra_conf cfg) = None
             /\ t = [HydraInit (hydra_conf cfg)]).
Proof.
  unfold loadConfig. destruct (config_file W) as [data |] eqn:Hfile.
  - unfold try_catch, bind, JSON_parse_throwing.
    destruct (JSON_parse W data) as [parsed |] eqn:Hparse.
    + destruct (hydra_init W (hydra_conf parsed)) as [message |] eqn:Hinit.
      * exists (match parsed with
                | JUndefined | JNull => []
                | _ => [HydraInit (hydra_conf parsed)]
                end), JNull.
        split.
        -- destruct parsed; cbn; try reflexivity;
             unfold hydra_conf in Hinit; cbn in Hinit; rewrite Hinit; reflexivity.
        -- left. split; [reflexivity |].
           destruct parsed; [now left | now left | right; eexists; reflexivity ..].
      * destruct parsed;
          try (exists [], JNull; split; [reflexivity | left; split; [reflexivity | now left]]);
          (eexists; eexists; split;
           [cbn; unfold hydra_conf in Hinit; cbn in Hinit; rewrite Hinit; reflexivity
           | right; exists data; repeat split; auto]).
    + exists [], JNull. split; [reflexivity | left; split; [reflexivity | now left]].
  - exists [], JNull. split; [reflexivity | left; split; [reflexivity | now left]].
Qed.

(** X1: whatever the config file holds and whatever [hydra.init] does, the
    startup does not throw: it ends with the parsed config loaded and handed
    to hydra, or else with the config [null]; the store is not opened. *)
Theorem startup_never_throws W :
  exists t cfg,
    loadConfig W initial
    = (t, {| configData := cfg; redisdb := None |}, Returned tt)
    /\ ((cfg = JNull /\ (t = [] \/ exists conf, t = [HydraInit conf]))
        \/ exists data,
             config_file W = Some data
             /\ JSON_parse W data = Some cfg
             /\ loaded {| configData := cfg; redisdb := None |} = true
             /\ hydra_init W (hydra_conf cfg) = None
             /\ t = [HydraInit (hydra_conf cfg)]).
Proof. exact (loadConfig_outcome W). Qed.

Lemma loadConfig_returns W :
  exists t p, loadConfig W initial = (t, p, Returned tt).
Proof.
  destruct (loadConfig_outcome W) as [t [cfg [H _]]]. eauto.
Qed.

Lemma run_main W command args :
  run (main W (command :: args)) initial
  = match loadConfig W initial with
    | (t, p, _) => (t ++ run (dispatch W command args) p)%list
    end.
Proof.
  destruct (loadConfig_returns W) as [t [p Hload]].
  unfold run. rewrite main_dispatch, Hload. step Hload.
  destruct (dispatch W command args p) as [[t' p'] [[] | e]]; cbn [trace_of].
  - reflexivity.
  - now rewrite app_assoc.
Qed.

(** X2: a first argument that is none of the verbs is answered with one line
    naming it, followed by the shutdown; no handler runs. *)
Theorem unknown_command_is_named W command args :
  existsb (String.eqb command) verbs = false ->
  run (main W (command :: args)) initial
  = (events_of (loadConfig W initial)
     ++ [Log ("Unknown command: " ++ command); ExitApp])%list.
Proof.
  intros Hverb. cbn [existsb verbs] in Hverb.
  repeat (apply orb_false_elim in Hverb; destruct Hverb as [? Hverb]).
  rewrite run_main. destruct (loadConfig W initial) as [[t p] r].
  unfold dispatch. repeat match goal with H : String.eqb _ _ = false |- _ =>
                            rewrite H; clear H end.
  reflexivity.
Qed.

Lemma unknown_command_is_named_witness :
  let W := world (Some config_text) None (Replied []) [] None [] in
  run (main W ["status"; "now"]) initial
  = (events_of (loadConfig W initial)
     ++ [Log ("Unknown command: " ++ "status"); ExitApp])%list.
Proof.
  intros W. exact (unknown_command_is_named W "status" ["now"] eq_refl).
Defined.

(** X3: [message] followed by anything but [create] or [send], and [nodes]
    followed by anything but [list] or [remove], prints one line naming the
    option and shuts down; a bare [message] names the option [undefined].
    Each command has its own options only: [message list] and [nodes send]
    are answered in this way too. *)
Theorem unknown_option_is_named W args args' :
  (forall sub, nth_error args 0 = Some sub ->
     String.eqb sub "create" = false /\ String.eqb sub "send" = false) ->
  args' <> [] ->
  (forall sub, nth_error args' 0 = Some sub ->
     String.eqb sub "list" = false /\ String.eqb sub "remove" = false) ->
  run (main W ("message" :: args)) initial
  = (events_of (loadConfig W initial)
     ++ [Log ("Unknown message options: " ++ template (nth_error args 0));
         ExitApp])%list
  /\ run (main W ("nodes" :: args')) initial
     = (events_of (loadConfig W initial)
        ++ [Log ("Unknown nodes options: " ++ template (nth_error args' 0));
            ExitApp])%list.
Proof.
  intros Hmessage Hargs Hnodes. split.
  - rewrite run_main. destruct (loadConfig W initial) as [[t p] r].
    unfold dispatch. cbn [String.eqb Ascii.eqb Bool.eqb].
    destruct (nth_error args 0) as [sub |]; [| reflexivity].
    destruct (Hmessage sub eq_refl) as [-> ->]. reflexivity.
  - rewrite run_main. destruct (loadConfig W initial) as [[t p] r].
    unfold dispatch. cbn [String.eqb Ascii.eqb Bool.eqb].
    destruct args' as [| sub rest]; [contradiction |].
    cbn [nth_error] in *. destruct (Hnodes sub eq_refl) as [-> ->]. reflexivity.
Qed.

Lemma unknown_option_is_named_witness :
  let W := world (Some config_text) None (Replied []) [] None [] in
  run (main W ["message"; "list"]) initial
  = (events_of (loadConfig W initial)
     ++ [Log ("Unknown message options: " ++ "list"); ExitApp])%list
  /\ run (main W ["nodes"; "send"; "message.json"]) initial
     = (events_of (loadConfig W initial)
        ++ [Log ("Unknown nodes options: " ++ "send"); ExitApp])%list.
Proof.
  intros W.
  refine (unknown_option_is_named W ["list"] ["send"; "message.json"] _ _ _).
  - intros sub H; inversion H; subst; split; reflexivity.
  - discriminate.
  - intros sub H; inversion H; subst; split; reflexivity.
Defined.

(** ** More on listing and removing nodes *)

Lemma collectNodes_unfiltered W args entries :
  (length args <= 1)%nat ->
  forall p, collectNodes W args entries p = collectNodes W [] entries p.
Proof.
  intros Hlen. induction entries as [| [entry text] rest IH]; intros p;
    [reflexivity |].
  cbn [collectNodes].
  assert (Hlisted : listed args (safeJSONParse W text)
                    = listed [] (safeJSONParse W text)).
  { unfold listed. destruct args as [| a [| b more]]; cbn [length] in *;
      [reflexivity | reflexivity | lia]. }
  rewrite Hlisted. unfold bind.
  destruct (listed [] (safeJSONParse W text) p) as [[t1 p1] [[|] | e]];
    [| now rewrite IH | reflexivity].
  destruct (js_get (safeJSONParse W text) "updatedOn" p1)
    as [[t2 p2] [updatedOn | e]]; [| reflexivity].
  destruct (js_set (safeJSONParse W text) "elapsed"
              (elapsedSince W (now W) updatedOn) p2)
    as [[t3 p3] [item | e]]; [| reflexivity].
  now rewrite IH.
Qed.

Lemma handleNodesList_unfiltered W args p :
  (length args <= 1)%nat ->
  handleNodesList W args p = handleNodesList W [] p.
Proof.
  intros Hlen. unfold handleNodesList, bind.
  destruct (redisConnect W p) as [[t p1] [[] | e]]; [| reflexivity].
  destruct (store (Hgetall (redisPreKey ++ ":nodes")) p1) as [[t2 p2] [[] | e]];
    [| reflexivity].
  destruct (hgetall_reply W (redisPreKey ++ ":nodes")) as [m | [data |]];
    try reflexivity.
  rewrite (collectNodes_unfiltered W args _ Hlen p2). reflexivity.
Qed.

(** X4: [nodes] alone does what [nodes list] does, event for event. *)
Theorem nodes_is_nodes_list W :
  run (main W ["nodes"]) initial = run (main W ["nodes"; "list"]) initial.
Proof.
  rewrite !run_main. destruct (loadConfig W initial) as [[t p] r].
  f_equal. unfold dispatch. cbn [String.eqb Ascii.eqb Bool.eqb nth_error length
                                 Nat.eqb].
  unfold run. rewrite (handleNodesList_unfiltered W ["list"] p); [reflexivity |].
  cbn. lia.
Qed.

(** X5: when the node hash cannot be listed, [nodes list] still shuts down:
    an error of the read is printed, a hash that does not exist ([null])
    prints nothing at all, and a hash without fields prints [[]]. *)
Theorem nodes_list_without_nodes W args p answer :
  loaded p = true ->
  hgetall_reply W (redisPreKey ++ ":nodes") = answer ->
  (forall data, answer = Replied (Some data) -> data = []) ->
  run (handleNodesList W args) p
  = (connects p ++ [Hgetall (redisPreKey ++ ":nodes")]
     ++ match answer with
        | Failed err => [LogError (HostError err)]
        | Replied None => []
        | Replied (Some _) => [Log "[]"]
        end
     ++ [ExitApp])%list.
Proof.
  intros Hcfg Hreply Hempty. unfold run, handleNodesList.
  step (redisConnect_loaded W p Hcfg). step (store_connected _ p).
  rewrite Hreply. destruct answer as [err | [data |]]; try reflexivity.
  rewrite (Hempty data eq_refl). reflexivity.
Qed.

Lemma nodes_list_without_nodes_witness :
  let W := world (Some config_text) None (Replied []) [] None [] in
  run (handleNodesList W ["list"; "auth"]) sample_program
  = (connects sample_program ++ [Hgetall (redisPreKey ++ ":nodes")]
     ++ [] ++ [ExitApp])%list.
Proof.
  intros W.
  refine (nodes_list_without_nodes W ["list"; "auth"] sample_program
            (Replied None) eq_refl eq_refl _).
  intros data H. discriminate H.
Defined.

Lemma collectNodes_all W entries p :
  (forall entry, In entry entries ->
     exists props, JSON_parse W (snd entry) = Some (JObject props)) ->
  collectNodes W [] entries p
  = ([], p,
     Returned (map (with_elapsed W)
                 (map (fun entry => safeJSONParse W (snd entry)) entries))).
Proof.
  induction entries as [| [id text] rest IH]; intros Hobjects; [reflexivity |].
  destruct (Hobjects (id, text) (or_introl eq_refl)) as [props Hparse].
  cbn [snd] in Hparse.
  assert (Hitem : safeJSONParse W text = JObject props)
    by (unfold safeJSONParse; now rewrite Hparse).
  cbn [collectNodes map snd]. rewrite Hitem.
  unfold bind. cbn [listed length Nat.eqb orb ret js_get js_set app].
  rewrite IH by (intros entry Hin; apply Hobjects; now right).
  reflexivity.
Qed.

(** X6: without a filter ([nodes], [nodes list]) every node whose value is a
    JSON object is printed, in the order of the hash.  Each printed node has
    [elapsed] set to the seconds computed from its [updatedOn], also when it
    was stored with an [elapsed] of its own, and every other field as
    stored. *)
Theorem nodes_list_lists_every_node W args data p :
  loaded p = true ->
  (length args <= 1)%nat ->
  hgetall_reply W (redisPreKey ++ ":nodes") = Replied (Some data) ->
  (forall id text, In (id, text) data ->
     exists props, JSON_parse W text = Some (JObject props)) ->
  run (handleNodesList W args) p
  = (connects p
     ++ [Hgetall (redisPreKey ++ ":nodes");
         Log (pretty (JArray (map (with_elapsed W) (stored_nodes W data))));
         ExitApp])%list
  /\ forall props,
       property (with_elapsed W (JObject props)) "elapsed"
       = elapsedSince W (now W) (property (JObject props) "updatedOn")
       /\ forall field, field <> "elapsed" ->
            property (with_elapsed W (JObject props)) field
            = property (JObject props) field.
Proof.
  intros Hcfg Hlen Hreply Hobjects. split.
  - unfold run. rewrite (handleNodesList_unfiltered W args p Hlen).
    unfold handleNodesList.
    step (redisConnect_loaded W p Hcfg). step (store_connected _ p).
    rewrite Hreply. unfold bind.
    rewrite collectNodes_all; [reflexivity |].
    intros [id text] Hin. apply (proj1 (enumerate_In _ _)) in Hin.
    exact (Hobjects id text Hin).
  - intros props. cbn [with_elapsed property]. split.
    + rewrite obj_assign_lookup. rewrite String.eqb_refl.
      cbn [ordinary String.eqb Ascii.eqb Bool.eqb negb]. now rewrite orb_true_r.
    + intros field Hfield. rewrite obj_assign_lookup.
      apply String.eqb_neq in Hfield. rewrite Hfield. reflexivity.
Qed.

Lemma nodes_list_lists_every_node_witness :
  let data := [("7f3a", node_text "auth-service" "t1");
               ("9c1e", node_text "user-service" "t2")] in
  let W := world (Some config_text) None (Replied []) [] (Some data) [] in
  run (handleNodesList W ["list"]) sample_program
  = (connects sample_program
     ++ [Hgetall (redisPreKey ++ ":nodes");
         Log (pretty (JArray (map (with_elapsed W) (stored_nodes W data))));
         ExitApp])%list.
Proof.
  intros data W.
  refine (proj1 (nodes_list_lists_every_node W ["list"] data sample_program
                   eq_refl _ eq_refl _)).
  - cbn. lia.
  - intros id text [H | [H | []]]; inversion H; subst; eexists; reflexivity.
Defined.

(** X7: [nodes remove <id>] issues one [hdel] of that id and reports the
    entry removed whatever count the store returns, also zero; a failing
    [hdel] prints its error instead.  Both end with the shutdown. *)
Theorem nodes_remove_reports W verb id p :
  loaded p = true ->
  run (handleNodesRemove W [verb; id]) p
  = (connects p
     ++ [Hdel (redisPreKey ++ ":nodes") (Some id);
         match hdel_reply W (redisPreKey ++ ":nodes") (Some id) with
         | Failed err => LogError (HostError err)
         | Replied _ => Log ("nodes entry " ++ id ++ " removed")
         end;
         ExitApp])%list.
Proof.
  intros Hcfg. unfold run, handleNodesRemove.
  cbn [length Nat.eqb negb nth_error template].
  rewrite bind_silent with (a := tt) by reflexivity.
  step (redisConnect_loaded W p Hcfg). step (store_connected _ p).
  destruct (hdel_reply W (redisPreKey ++ ":nodes") (Some id)); reflexivity.
Qed.

Lemma nodes_remove_reports_witness :
  let W := world (Some config_text) None (Replied []) [] None [] in
  run (handleNodesRemove W ["remove"; "7f3a"]) sample_program
  = (connects sample_program
     ++ [Hdel (redisPreKey ++ ":nodes") (Some "7f3a");
         Log ("nodes entry " ++ "7f3a" ++ " removed"); ExitApp])%list.
Proof.
  intros W.
  exact (nodes_remove_reports W "remove" "7f3a" sample_program eq_refl).
Defined.

(** ** More on the health log and the routes *)

(** X8: a batch read that fails prints its error and shuts down; nothing of
    the log is printed. *)
Theorem healthlog_batch_error W serviceName p instance instances err :
  loaded p = true ->
  keys_reply W (healthPattern serviceName) = Replied (instance :: instances) ->
  exec_reply W (instance :: instances) = Failed err ->
  run (handleHealthLog W [serviceName]) p
  = (connects p
     ++ [Keys (healthPattern serviceName); Multi]
     ++ map (fun i => Lrange i 0 100) (instance :: instances)
     ++ [Exec; LogError (HostError err); ExitApp])%list.
Proof.
  intros Hcfg Hkeys Hexec. unfold run, handleHealthLog.
  step (redisConnect_loaded W p Hcfg).
  cbn [nth_error template]. fold (healthPattern serviceName).
  step (getKeys_connected W _ p). rewrite Hkeys. cbn [length Nat.eqb].
  step (store_connected Multi p). step (queueRanges_trace _ (connected p)).
  rewrite Hexec. reflexivity.
Qed.

Lemma healthlog_batch_error_witness :
  let W := {| JSON_parse := parse_table documents;
              config_file := Some config_text;
              hydra_init := fun _ => None;
              now := 1000;
              elapsedSince := fun _ _ => JNumber 5;
              select_reply := None;
              keys_reply := fun _ => Replied ["hydra:service:auth:7f3a:health:log"];
              smembers_reply := fun _ => Replied [];
              hgetall_reply := fun _ => Replied None;
              hdel_reply := fun _ _ => Replied 1%Z;
              exec_reply := fun _ => Failed "EXECABORT";
              parseRoute := fun _ => Thrown TypeError;
              createMessage := fun fields => fields;
              config_init := fun _ => Failed "ENOENT";
              sendMessage := fun _ => None;
              makeAPIRequest := fun _ => Failed "unavailable";
              prompt_answers := ("127.0.0.1", "6379", "15");
              writeFile_error := None |} in
  run (handleHealthLog W ["auth"]) sample_program
  = (connects sample_program
     ++ [Keys (healthPattern "auth"); Multi]
     ++ map (fun i => Lrange i 0 100) ["hydra:service:auth:7f3a:health:log"]
     ++ [Exec; LogError (HostError "EXECABORT"); ExitApp])%list.
Proof.
  intros W.
  exact (healthlog_batch_error W "auth" sample_program
           "hydra:service:auth:7f3a:health:log" [] "EXECABORT"
           eq_refl eq_refl eq_refl).
Defined.

Lemma Promise_all_settled W names p :
  Promise_all (map (fun name => settled (smembers_reply W (routesKey name)))
                 names) p
  = ([], p,
     match first_failure W names with
     | Some err => Thrown (HostError err)
     | None =>
         Returned (map (fun name => routes_read W (template name)) names)
     end).
Proof.
  induction names as [| name rest IH]; [reflexivity |].
  cbn [map Promise_all first_failure]. unfold routes_read at 1.
  change (routesKey (Some (template name))) with (routesKey name).
  destruct (smembers_reply W (routesKey name)) as [err | routes];
    [reflexivity |].
  rewrite bind_silent with (a := routes) by reflexivity.
  unfold bind. rewrite IH. destruct (first_failure W rest); reflexivity.
Qed.

(** The shape of every run of [handleRoutes] once the keys are known. *)
Lemma handleRoutes_run W args p t names :
  loaded p = true ->
  selectServices W args
    match keys_reply W "*:routes" with
    | Failed _ => []
    | Replied keys => keys
    end (connected p)
  = (t, connected p,
     Returned (names,
               map (fun name => settled (smembers_reply W (routesKey name)))
                 names)) ->
  run (handleRoutes W args) p
  = (connects p ++ [Keys "*:routes"] ++ t
     ++ match first_failure W names with
        | Some err => [LogError (HostError err); ExitApp]
        | None =>
            [Log (pretty (JObject
                    (assemble names 0
                       (map (fun name => routes_read W (template name)) names)
                       [])));
             ExitApp]
        end)%list.
Proof.
  intros Hcfg Hselect. unfold run, handleRoutes.
  step (redisConnect_loaded W p Hcfg). unfold try_catch.
  step (getKeys_connected W _ p). step Hselect. cbn [fst snd].
  unfold bind at 1. rewrite Promise_all_settled.
  destruct (first_failure W names); cbn; rewrite ?app_nil_r; reflexivity.
Qed.

(** X9: a failing [keys] command is shown as an empty result: [healthlog]
    prints [[]] and [routes] prints [{}], each followed by the shutdown,
    exactly as when no key matches. *)
Theorem enumeration_fault_looks_empty W serviceName args p :
  loaded p = true ->
  (forall pattern, exists err, keys_reply W pattern = Failed err) ->
  run (handleHealthLog W [serviceName]) p
  = (connects p ++ [Keys (healthPattern serviceName); Log "[]"; ExitApp])%list
  /\ run (handleRoutes W args) p
     = (connects p ++ [Keys "*:routes"; Log "{}"; ExitApp])%list.
Proof.
  intros Hcfg Hdown. split.
  - destruct (Hdown (healthPattern serviceName)) as [err Hkeys].
    unfold run, handleHealthLog. step (redisConnect_loaded W p Hcfg).
    cbn [nth_error template]. fold (healthPattern serviceName).
    step (getKeys_connected W _ p). rewrite Hkeys. reflexivity.
  - destruct (Hdown "*:routes") as [err Hkeys].
    rewrite (handleRoutes_run W args p [] []); [reflexivity | exact Hcfg |].
    rewrite Hkeys. reflexivity.
Qed.

Lemma enumeration_fault_looks_empty_witness :
  let W := world (Some config_text) None (Failed "ECONNRESET") [] None [] in
  run (handleHealthLog W ["auth"]) sample_program
  = (connects sample_program
     ++ [Keys (healthPattern "auth"); Log "[]"; ExitApp])%list
  /\ run (handleRoutes W ["auth"]) sample_program
     = (connects sample_program ++ [Keys "*:routes"; Log "{}"; ExitApp])%list.
Proof.
  intros W.
  refine (enumeration_fault_looks_empty W "auth" ["auth"] sample_program
            eq_refl _).
  intros pattern. exists "ECONNRESET". reflexivity.
Defined.

(** X10: [routes] with two or more arguments keeps no service: it reads no
    route set and prints [{}], whatever keys the store holds. *)
Theorem routes_surplus_arguments W args p :
  loaded p = true ->
  (2 <= length args)%nat ->
  run (handleRoutes W args) p
  = (connects p ++ [Keys "*:routes"; Log "{}"; ExitApp])%list.
Proof.
  intros Hcfg Hlen.
  rewrite (handleRoutes_run W args p [] []); [reflexivity | exact Hcfg |].
  apply selectServices_surplus, Hlen.
Qed.

Lemma routes_surplus_arguments_witness :
  let W := world (Some config_text) None
             (Replied ["hydra:service:auth:service:routes"])
             [("hydra:service:auth:service:routes", ["[get]/v1/auth"])]
             None [] in
  run (handleRoutes W ["auth"; "user"]) sample_program
  = (connects sample_program ++ [Keys "*:routes"; Log "{}"; ExitApp])%list.
Proof.
  intros W.
  refine (routes_surplus_arguments W ["auth"; "user"] sample_program eq_refl _).
  cbn. lia.
Defined.

(** X11: [getRoutes] hands on the errors of the store: when the route set of
    some kept service cannot be read, [routes] prints the error of the first
    such service in discovery order, and no object, after having queued the
    reads of all kept services; the shutdown follows. *)
Theorem routes_read_error_is_printed W nameFilter keys err p :
  loaded p = true ->
  keys_reply W "*:routes" = Replied keys ->
  (forall key, In key keys -> extracted key <> None) ->
  first_failure W (map Some (selected nameFilter keys)) = Some err ->
  run (handleRoutes W [nameFilter]) p
  = (connects p ++ [Keys "*:routes"]
     ++ map (fun name => Smembers (routesKey (Some name)))
          (selected nameFilter keys)
     ++ [LogError (HostError err); ExitApp])%list.
Proof.
  intros Hcfg Hkeys Hshape Hfail.
  rewrite (handleRoutes_run W [nameFilter] p
             (map (fun name => Smembers (routesKey (Some name)))
                (selected nameFilter keys))
             (map Some (selected nameFilter keys)) Hcfg).
  - rewrite Hfail. reflexivity.
  - rewrite Hkeys, (selectServices_selected W nameFilter keys p Hshape).
    now rewrite map_map.
Qed.

Lemma routes_read_error_is_printed_witness :
  let keys := ["hydra:service:auth:service:routes";
               "hydra:service:user:service:routes"] in
  let W := world (Some config_text) None (Replied keys)
             [("hydra:service:auth:service:routes", ["[get]/v1/auth"])]
             None [] in
  run (handleRoutes W ["s"]) sample_program
  = (connects sample_program ++ [Keys "*:routes"]
     ++ map (fun name => Smembers (routesKey (Some name))) (selected "s" keys)
     ++ [LogError (HostError "WRONGTYPE"); ExitApp])%list.
Proof.
  intros keys W.
  refine (routes_read_error_is_printed W "s" keys "WRONGTYPE" sample_program
            eq_refl eq_refl _ eq_refl).
  intros key [H | [H | []]]; subst key; discriminate.
Defined.

Lemma selectServices_everything W keys p :
  selectServices W [] keys (connected p)
  = (map (fun key => Smembers (routesKey (extracted key))) keys,
     connected p,
     Returned (map extracted keys,
               map (fun name => settled (smembers_reply W (routesKey name)))
                 (map extracted keys))).
Proof.
  induction keys as [| key rest IH]; [reflexivity |].
  cbn [selectServices length Nat.eqb].
  change (nth_error (split ":" key) 2) with (extracted key).
  rewrite bind_silent with (a := true) by reflexivity.
  step (getRoutes_connected W (extracted key) p). step IH.
  unfold ret. cbn [map app fst snd]. rewrite app_nil_r. reflexivity.
Qed.

Lemma assemble_assign_every W names :
  forall before resObj,
    assemble (before ++ names) (length before)
      (map (fun name => routes_read W (template name)) names) resObj
    = assign_all (route_set (routes_read W)) (map template names) resObj.
Proof.
  induction names as [| name rest IH]; intros before resObj; [reflexivity |].
  cbn [map assemble]. rewrite assign_all_cons.
  rewrite nth_error_app2, Nat.sub_diag by lia. cbn [nth_error].
  specialize (IH (before ++ [name])%list).
  rewrite <- app_assoc, length_app in IH. cbn [app length] in IH.
  rewrite Nat.add_1_r in IH. apply IH.
Qed.

(** X12: [routes] without a filter files every discovered key under its
    third segment, and a key with fewer than three segments under
    [undefined]; when every route set is read, the printed object maps each
    such name, [__proto__] apart, to the routes stored for it. *)
Theorem routes_without_filter W keys p :
  loaded p = true ->
  keys_reply W "*:routes" = Replied keys ->
  first_failure W (map extracted keys) = None ->
  exists resObj,
    run (handleRoutes W []) p
    = (connects p ++ [Keys "*:routes"]
       ++ map (fun key => Smembers (routesKey (extracted key))) keys
       ++ [Log (pretty (JObject resObj)); ExitApp])%list
    /\ map fst resObj
       = first_occurrences (filter ordinary (map filed_under keys))
    /\ forall name,
         obj_lookup name resObj
         = if (existsb (String.eqb name) (map filed_under keys)
               && ordinary name)%bool
           then Some (route_set (routes_read W) name)
           else None.
Proof.
  intros Hcfg Hkeys Hread.
  exists (assign_all (route_set (routes_read W)) (map filed_under keys) []).
  split; [| split].
  - rewrite (handleRoutes_run W [] p
               (map (fun key => Smembers (routesKey (extracted key))) keys)
               (map extracted keys) Hcfg).
    + rewrite Hread.
      pose proof (assemble_assign_every W (map extracted keys) [] []) as Hall.
      cbn [app length] in Hall. rewrite Hall, map_map. reflexivity.
    + rewrite Hkeys. apply selectServices_everything.
  - rewrite assign_all_keys. cbn [map app].
    generalize (first_occurrences (filter ordinary (map filed_under keys))).
    intros names. induction names as [| name rest IH]; [reflexivity |].
    cbn [filter]. unfold has_key at 1. cbn [map existsb negb]. now rewrite IH.
  - intros name. now rewrite assign_all_lookup.
Qed.

Lemma routes_without_filter_witness :
  let keys := ["hydra:service:auth:service:routes"; "stray:routes"] in
  let W := world (Some config_text) None (Replied keys)
             [("hydra:service:auth:service:routes", ["[get]/v1/auth"]);
              ("hydra:service:undefined:service:routes", [])]
             None [] in
  exists resObj,
    run (handleRoutes W []) sample_program
    = (connects sample_program ++ [Keys "*:routes"]
       ++ map (fun key => Smembers (routesKey (extracted key))) keys
       ++ [Log (pretty (JObject resObj)); ExitApp])%list
    /\ map fst resObj
       = first_occurrences (filter ordinary (map filed_under keys))
    /\ forall name,
         obj_lookup name resObj
         = if (existsb (String.eqb name) (map filed_under keys)
               && ordinary name)%bool
           then Some (route_set (routes_read W) name)
           else None.
Proof.
  intros keys W.
  exact (routes_without_filter W keys sample_program eq_refl eq_refl eq_refl).
Defined.

Example stray_key_is_filed_under_undefined :
  map filed_under ["hydra:service:auth:service:routes"; "stray:routes"]
  = ["auth"; "undefined"].
Proof. reflexivity. Qed.

Lemma selectServices_stops W nameFilter good bad rest p :
  (forall key, In key good -> extracted key <> None) ->
  extracted bad = None ->
  selectServices W [nameFilter] (good ++ bad :: rest)%list (connected p)
  = (map (fun name => Smembers (routesKey (Some name)))
       (selected nameFilter good),
     connected p, Thrown TypeError).
Proof.
  intros Hgood Hbad. induction good as [| key more IH].
  - cbn [app selectServices length Nat.eqb].
    change (nth_error (split ":" bad) 2) with (extracted bad).
    rewrite Hbad. reflexivity.
  - assert (Hmore : forall k, In k more -> extracted k <> None)
      by (intros k Hin; apply Hgood; now right).
    specialize (IH Hmore).
    cbn [app selectServices length Nat.eqb].
    change (nth_error (split ":" key) 2) with (extracted key).
    unfold selected, discovered. cbn [flat_map].
    destruct (extracted key) as [name |] eqn:Hname;
      [| exfalso; apply (Hgood key (or_introl eq_refl)), Hname].
    cbn [app filter nth_error template]. fold (discovered more).
    change (filter (fun n => (-1 <? indexOf n nameFilter)%Z) (discovered more))
      with (selected nameFilter more).
    rewrite bind_silent with (a := (-1 <? indexOf name nameFilter)%Z)
      by reflexivity.
    destruct (-1 <? indexOf name nameFilter)%Z.
    + step (getRoutes_connected W (Some name) p).
      unfold bind. rewrite IH. reflexivity.
    + exact IH.
Qed.

(** X13: with a filter, a discovered key that has fewer than three segments
    stops [routes]: the [TypeError] of testing its missing name is caught
    and printed, no object is printed, only the services before that key
    had their routes requested, and the shutdown follows. *)
Theorem routes_stray_key_stops_the_listing W nameFilter good bad rest p :
  loaded p = true ->
  keys_reply W "*:routes" = Replied (good ++ bad :: rest)%list ->
  (forall key, In key good -> extracted key <> None) ->
  extracted bad = None ->
  run (handleRoutes W [nameFilter]) p
  = (connects p ++ [Keys "*:routes"]
     ++ map (fun name => Smembers (routesKey (Some name)))
          (selected nameFilter good)
     ++ [LogError TypeError; ExitApp])%list.
Proof.
  intros Hcfg Hkeys Hgood Hbad. unfold run, handleRoutes.
  step (redisConnect_loaded W p Hcfg). unfold try_catch.
  step (getKeys_connected W _ p). rewrite Hkeys.
  stop (selectServices_stops W nameFilter good bad rest p Hgood Hbad).
  reflexivity.
Qed.

Lemma routes_stray_key_stops_the_listing_witness :
  let W := world (Some config_text) None
             (Replied (["hydra:service:auth:service:routes"]
                       ++ "stray:routes"
                       :: ["hydra:service:user:service:routes"])%list)
             [("hydra:service:auth:service:routes", ["[get]/v1/auth"])]
             None [] in
  run (handleRoutes W ["a"]) sample_program
  = (connects sample_program ++ [Keys "*:routes"]
     ++ map (fun name => Smembers (routesKey (Some name)))
          (selected "a" ["hydra:service:auth:service:routes"])
     ++ [LogError TypeError; ExitApp])%list.
Proof.
  intros W.
  refine (routes_stray_key_stops_the_listing W "a"
            ["hydra:service:auth:service:routes"] "stray:routes"
            ["hydra:service:user:service:routes"] sample_program
            eq_refl eq_refl _ eq_refl).
  intros key [H | []]; subst key; discriminate.
Defined.

(** ** Keys and names *)

Lemma split_nonempty sep s : split sep s <> [].
Proof.
  destruct s as [| c r]; cbn [split]; [discriminate |].
  destruct (Ascii.eqb c sep); [discriminate |].
  destruct (split sep r); discriminate.
Qed.

Lemma split_at_colon a rest :
  split ":" (a ++ String ":" rest) = (split ":" a ++ split ":" rest)%list.
Proof.
  induction a as [| c a IH]; [reflexivity |].
  cbn [append split]. destruct (Ascii.eqb c ":").
  - rewrite IH. reflexivity.
  - rewrite IH. destruct (split ":" a) as [| seg segs] eqn:Hsplit;
      [exfalso; exact (split_nonempty _ _ Hsplit) | reflexivity].
Qed.

Lemma split_colon_free s : colon_free s = true -> split ":" s = [s].
Proof.
  induction s as [| c s IH]; [reflexivity |].
  cbn [colon_free split]. intros H. apply andb_prop in H. destruct H as [Hc Hs].
  apply negb_true_iff in Hc. rewrite Hc, (IH Hs). reflexivity.
Qed.

(** X14: reading the name back off the key that [getRoutes] builds for a
    service gives the first colon-separated segment of the name: the name
    itself when it holds no colon, so that [routes] then asks for the very
    key it discovered. *)
Theorem route_key_names_its_service name :
  extracted (routesKey (Some name)) = nth_error (split ":" name) 0
  /\ (colon_free name = true ->
      extracted (routesKey (Some name)) = Some name
      /\ routesKey (extracted (routesKey (Some name))) = routesKey (Some name)).
Proof.
  assert (Hfirst : extracted (routesKey (Some name))
                   = nth_error (split ":" name) 0).
  { unfold extracted, routesKey, redisPreKey. cbn [template].
    change ("hydra:service" ++ ":" ++ name ++ ":service:routes")
      with ("hydra:service" ++ String ":" (name ++ String ":" "service:routes")).
    rewrite !split_at_colon. cbn [split Ascii.eqb Bool.eqb app nth_error].
    destruct (split ":" name) as [| seg segs] eqn:Hsplit;
      [exfalso; exact (split_nonempty _ _ Hsplit) | reflexivity]. }
  split; [exact Hfirst |].
  intros Hfree. rewrite Hfirst, (split_colon_free name Hfree). split; reflexivity.
Qed.

Lemma route_key_names_its_service_witness :
  extracted (routesKey (Some "auth-service")) = nth_error (split ":" "auth-service") 0
  /\ (colon_free "auth-service" = true ->
      extracted (routesKey (Some "auth-service")) = Some "auth-service"
      /\ routesKey (extracted (routesKey (Some "auth-service")))
         = routesKey (Some "auth-service")).
Proof. exact (route_key_names_its_service "auth-service"). Defined.

Example colon_in_a_name_is_cut :
  extracted (routesKey (Some "billing:v2")) = Some "billing".
Proof. reflexivity. Qed.

Lemma append_assoc_string (a b c : string) : (a ++ b) ++ c = a ++ b ++ c.
Proof. induction a as [| x a IH]; cbn [append]; [reflexivity | now rewrite IH]. Qed.

Lemma contains_trans hay middle needle :
  contains hay middle -> contains middle needle -> contains hay needle.
Proof.
  intros [b1 [a1 H1]] [b2 [a2 H2]]. exists (b1 ++ b2), (a2 ++ a1).
  rewrite H1, H2, !append_assoc_string. reflexivity.
Qed.

Lemma filter_incl_by {A : Type} (f g : A -> bool) l :
  (forall x, f x = true -> g x = true) -> incl (filter f l) (filter g l).
Proof.
  intros H x Hin. apply filter_In in Hin. apply filter_In.
  split; [apply Hin | apply H, Hin].
Qed.

(** X15: a longer filter lists less: when one filter contains another, the
    nodes that [nodes list] keeps for it, and the services that [routes]
    keeps for it, are among those kept for the filter it contains. *)
Theorem narrower_filter_lists_less W action wide narrow entries keys p :
  contains narrow wide ->
  (forall entry, In entry entries -> service_node W (snd entry)) ->
  (forall key, In key keys -> extracted key <> None) ->
  exists nodes nodes' t t' found found',
    collectNodes W [action; wide] entries p = ([], p, Returned nodes)
    /\ collectNodes W [action; narrow] entries p = ([], p, Returned nodes')
    /\ incl nodes' nodes
    /\ selectServices W [wide] keys (connected p)
       = (t, connected p, Returned found)
    /\ selectServices W [narrow] keys (connected p)
       = (t', connected p, Returned found')
    /\ incl (fst found') (fst found)
    /\ incl t' t.
Proof.
  intros Hfilters Hnodes Hkeys.
  assert (Hnames : forall name,
             (-1 <? indexOf name narrow)%Z = true ->
             (-1 <? indexOf name wide)%Z = true).
  { intros name H. apply indexOf_contains. apply indexOf_contains in H.
    exact (contains_trans _ _ _ H Hfilters). }
  do 6 eexists.
  split; [apply (collectNodes_filtered W action wide entries p Hnodes) |].
  split; [apply (collectNodes_filtered W action narrow entries p Hnodes) |].
  split; [apply incl_map, filter_incl_by; intros node; apply Hnames |].
  split; [apply (selectServices_selected W wide keys p Hkeys) |].
  split; [apply (selectServices_selected W narrow keys p Hkeys) |].
  cbn [fst]. split; apply incl_map, filter_incl_by; exact Hnames.
Qed.

Lemma narrower_filter_lists_less_witness :
  let W := world (Some config_text) None (Replied []) [] None [] in
  let entries := [("7f3a", node_text "auth-service" "t1");
                  ("9c1e", node_text "user-service" "t2")] in
  let keys := ["hydra:service:auth:service:routes";
               "hydra:service:user:service:routes"] in
  exists nodes nodes' t t' found found',
    collectNodes W ["list"; "ser"] entries sample_program
    = ([], sample_program, Returned nodes)
    /\ collectNodes W ["list"; "user"] entries sample_program
       = ([], sample_program, Returned nodes')
    /\ incl nodes' nodes
    /\ selectServices W ["ser"] keys (connected sample_program)
       = (t, connected sample_program, Returned found)
    /\ selectServices W ["user"] keys (connected sample_program)
       = (t', connected sample_program, Returned found')
    /\ incl (fst found') (fst found)
    /\ incl t' t.
Proof.
  intros W entries keys.
  refine (narrower_filter_lists_less W "list" "ser" "user" entries keys
            sample_program _ _ _).
  - exists "u", EmptyString. reflexivity.
  - intros entry [H | [H | []]]; subst entry.
    + exists [("serviceName", JString "auth-service"); ("updatedOn", JString "t1")],
        "auth-service". split; reflexivity.
    + exists [("serviceName", JString "user-service"); ("updatedOn", JString "t2")],
        "user-service". split; reflexivity.
  - intros key [H | [H | []]]; subst key; discriminate.
Defined.

(** ** Configuring *)

Lemma not_config_list args :
  args <> ["list"] ->
  (Nat.eqb (length args) 1
   && match nth_error args 0 with
      | Some a => String.eqb a "list"
      | None => false
      end)%bool = false.
Proof.
  intros Hargs. destruct args as [| a [| b rest]]; try reflexivity.
  cbn [length Nat.eqb nth_error andb].
  destruct (String.eqb_spec a "list") as [-> | _]; [contradiction | reflexivity].
Qed.

(** X16: [config] asks its three questions and writes the loaded config
    with the three answers stored as the strings that were typed; every
    other field of the loaded config is written back unchanged and in place,
    and a failing write is printed.  The process then exits. *)
Theorem config_keeps_other_fields W args p props redisUrl redisPort redisDb :
  args <> ["list"] ->
  config_fields (configData p) = Some props ->
  prompt_answers W = (redisUrl, redisPort, redisDb) ->
  exists written added,
    run (handleConfigCommand W args) p
    = ([Question "redisUrl: "; Question "redisPort: "; Question "redisDb: ";
        WriteFile (printed (JSON_stringify EmptyString (JObject written)))]
       ++ match writeFile_error W with
          | Some err => [LogError (HostError err)]
          | None => []
          end
       ++ [ProcessExit])%list
    /\ obj_lookup "redisUrl" written = Some (JString redisUrl)
    /\ obj_lookup "redisPort" written = Some (JString redisPort)
    /\ obj_lookup "redisDb" written = Some (JString redisDb)
    /\ (forall field,
          field <> "redisUrl" -> field <> "redisPort" -> field <> "redisDb" ->
          obj_lookup field written = obj_lookup field props)
    /\ map fst written = (map fst props ++ added)%list.
Proof.
  intros Hargs Hfields Hanswers.
  set (written := obj_assign "redisDb" (JString redisDb)
                    (obj_assign "redisPort" (JString redisPort)
                       (obj_assign "redisUrl" (JString redisUrl) props))).
  assert (Hkeys : exists added, map fst written = (map fst props ++ added)%list).
  { unfold written. rewrite !obj_assign_keys.
    repeat match goal with
           | |- context [if ?b then _ else _] => destruct b
           end;
      rewrite <- ?app_assoc; eexists; try reflexivity.
    rewrite app_nil_r. reflexivity. }
  destruct Hkeys as [added Hkeys]. exists written, added.
  split; [| split; [| split; [| split; [| split]]]].
  - unfold run, handleConfigCommand. rewrite (not_config_list args Hargs), Hanswers.
    assert (Hdata : (if truthy (configData p) then configData p else JObject [])
                    = JObject props).
    { destruct (configData p) as [| | [|] | n | text | items | fields];
        cbn [config_fields truthy] in *; try discriminate Hfields;
        try (inversion Hfields; reflexivity).
      - destruct (negb (n =? 0)%Z); [discriminate Hfields | now inversion Hfields].
      - destruct (negb (String.eqb text EmptyString));
          [discriminate Hfields | now inversion Hfields]. }
    unfold bind, this, emit. cbn [app]. rewrite Hdata. cbn [js_set ret app].
    fold written. destruct (writeFile_error W); reflexivity.
  - unfold written. rewrite !obj_assign_lookup. cbn [String.eqb Ascii.eqb Bool.eqb
      andb ordinary negb]. rewrite orb_true_r. reflexivity.
  - unfold written. rewrite !obj_assign_lookup. cbn [String.eqb Ascii.eqb Bool.eqb
      andb ordinary negb]. rewrite orb_true_r. reflexivity.
  - unfold written. rewrite !obj_assign_lookup. cbn [String.eqb Ascii.eqb Bool.eqb
      andb ordinary negb]. rewrite orb_true_r. reflexivity.
  - intros field Hurl Hport Hdb. unfold written. rewrite !obj_assign_lookup.
    apply String.eqb_neq in Hurl, Hport, Hdb. rewrite Hurl, Hport, Hdb.
    reflexivity.
  - exact Hkeys.
Qed.

Lemma config_keeps_other_fields_witness :
  let W := world (Some config_text) None (Replied []) [] None [] in
  let p := {| configData := JObject [("owner", JString "ops");
                                     ("redisPort", JNumber 7000)];
              redisdb := None |} in
  exists written added,
    run (handleConfigCommand W []) p
    = ([Question "redisUrl: "; Question "redisPort: "; Question "redisDb: ";
        WriteFile (printed (JSON_stringify EmptyString (JObject written)))]
       ++ match writeFile_error W with
          | Some err => [LogError (HostError err)]
          | None => []
          end
       ++ [ProcessExit])%list
    /\ obj_lookup "redisUrl" written = Some (JString "127.0.0.1")
    /\ obj_lookup "redisPort" written = Some (JString "6379")
    /\ obj_lookup "redisDb" written = Some (JString "15")
    /\ (forall field,
          field <> "redisUrl" -> field <> "redisPort" -> field <> "redisDb" ->
          obj_lookup field written
          = obj_lookup field [("owner", JString "ops");
                              ("redisPort", JNumber 7000)])
    /\ map fst written
       = (map fst [("owner", JString "ops"); ("redisPort", JNumber 7000)]
          ++ added)%list.
Proof.
  intros W p.
  refine (config_keeps_other_fields W [] p
            [("owner", JString "ops"); ("redisPort", JNumber 7000)]
            "127.0.0.1" "6379" "15" _ eq_refl eq_refl).
  discriminate.
Defined.

(** X17: when the loaded config is a truthy primitive (a config file holding
    a JSON number, string or [true]), [config] asks its questions and then
    dies on the first assignment: nothing is written and the process is not
    exited by the handler. *)
Theorem config_on_primitive_throws W args p :
  args <> ["list"] ->
  truthy_primitive (configData p) = true ->
  run (handleConfigCommand W args) p
  = [Question "redisUrl: "; Question "redisPort: "; Question "redisDb: ";
     Escapes TypeError].
Proof.
  intros Hargs Hprimitive. unfold run, handleConfigCommand.
  rewrite (not_config_list args Hargs).
  destruct (prompt_answers W) as [[redisUrl redisPort] redisDb].
  unfold bind, this, emit. cbn [app].
  destruct (configData p); cbn [truthy_primitive] in Hprimitive;
    try discriminate Hprimitive; rewrite Hprimitive; reflexivity.
Qed.

Lemma config_on_primitive_throws_witness :
  let W := world (Some "5") None (Replied []) [] None [] in
  run (handleConfigCommand W []) {| configData := JNumber 5; redisdb := None |}
  = [Question "redisUrl: "; Question "redisPort: "; Question "redisDb: ";
     Escapes TypeError].
Proof.
  intros W.
  refine (config_on_primitive_throws W []
            {| configData := JNumber 5; redisdb := None |} _ eq_refl).
  discriminate.
Defined.

(** X18: what [config] writes on a first run is what the next run loads:
    once the written text is read back as the object it serializes and
    hydra accepts it, the next run holds the three answers as typed, as
    strings, and [config list] prints them so. *)
Theorem config_then_next_run W W' args redisUrl redisPort redisDb content :
  args <> ["list"] ->
  unreadable W ->
  prompt_answers W = (redisUrl, redisPort, redisDb) ->
  In (WriteFile content) (run (main W ("config" :: args)) initial) ->
  config_file W' = Some content ->
  JSON_parse W'
    (printed (JSON_stringify EmptyString
                (answers_object redisUrl redisPort redisDb)))
  = Some (answers_object redisUrl redisPort redisDb) ->
  hydra_init W' (hydra_conf (answers_object redisUrl redisPort redisDb)) = None ->
  run (main W' ["config"; "list"]) initial
  = [HydraInit (hydra_conf (answers_object redisUrl redisPort redisDb));
     Log (pretty (answers_object redisUrl redisPort redisDb)); ProcessExit]
  /\ loadConfig W' initial
     = ([HydraInit (hydra_conf (answers_object redisUrl redisPort redisDb))],
        {| configData := answers_object redisUrl redisPort redisDb;
           redisdb := None |},
        Returned tt).
Proof.
  intros Hargs Hfresh Hanswers Hwritten Hfile Hparse Hinit.
  assert (Hcontent : content
                     = printed (JSON_stringify EmptyString
                                  (answers_object redisUrl redisPort redisDb))).
  { rewrite run_main, (loadConfig_unreadable W Hfresh) in Hwritten.
    unfold dispatch, run, handleConfigCommand in Hwritten.
    cbn [String.eqb Ascii.eqb Bool.eqb app] in Hwritten.
    rewrite (not_config_list args Hargs), Hanswers in Hwritten.
    unfold bind, this, emit in Hwritten.
    cbn [initial configData truthy js_set ret app obj_assign obj_lookup
         String.eqb Ascii.eqb Bool.eqb] in Hwritten.
    destruct (writeFile_error W); cbn in Hwritten;
      repeat (destruct Hwritten as [Hwritten | Hwritten];
              [try discriminate Hwritten; now inversion Hwritten |]);
      contradiction. }
  subst content.
  assert (Hload : loadConfig W' initial
                  = ([HydraInit (hydra_conf
                                   (answers_object redisUrl redisPort redisDb))],
                     {| configData := answers_object redisUrl redisPort redisDb;
                        redisdb := None |},
                     Returned tt)).
  { unfold loadConfig. rewrite Hfile.
    unfold try_catch, bind, JSON_parse_throwing. rewrite Hparse.
    cbn. unfold hydra_conf, answers_object in Hinit. cbn in Hinit.
    rewrite Hinit. reflexivity. }
  split.
  - rewrite run_main, Hload. reflexivity.
  - exact Hload.
Qed.

Lemma config_then_next_run_witness :
  let W := world None None (Replied []) [] None [] in
  let W' := world (Some config_text) None (Replied []) [] None [] in
  run (main W' ["config"; "list"]) initial
  = [HydraInit (hydra_conf (answers_object "127.0.0.1" "6379" "15"));
     Log (pretty (answers_object "127.0.0.1" "6379" "15")); ProcessExit]
  /\ loadConfig W' initial
     = ([HydraInit (hydra_conf (answers_object "127.0.0.1" "6379" "15"))],
        {| configData := answers_object "127.0.0.1" "6379" "15";
           redisdb := None |},
        Returned tt).
Proof.
  intros W W'.
  refine (config_then_next_run W W' [] "127.0.0.1" "6379" "15" config_text
            _ I eq_refl _ eq_refl eq_refl eq_refl).
  - discriminate.
  - vm_compute. right. right. right. left. reflexivity.
Defined.

(** ** Messages and requests *)

(** X19: [message send] sends a message exactly when it was given two
    arguments and the file named by the second one loaded; what it sends is
    the loaded object itself. *)
Theorem message_is_sent_iff W args p msg :
  In (SendMessage msg) (run (handleMessageSend W args) p)
  <-> length args = 2%nat /\ config_init W (nth_error args 1) = Replied msg.
Proof.
  unfold run, handleMessageSend.
  destruct (Nat.eqb_spec (length args) 2) as [Hlen | Hlen]; cbn [negb].
  - destruct (config_init W (nth_error args 1)) as [message | object] eqn:Hinit.
    + split.
      * intros Hin. cbn in Hin.
        repeat (destruct Hin as [Hin | Hin]; [discriminate Hin |]). contradiction.
      * intros [_ H]. discriminate H.
    + split.
      * intros Hin. split; [exact Hlen |].
        destruct (sendMessage W object); cbn in Hin;
          repeat (destruct Hin as [Hin | Hin];
                  [try discriminate Hin; now inversion Hin |]);
          contradiction.
      * intros [_ H]. inversion H; subst.
        destruct (sendMessage W msg); cbn; right; left; reflexivity.
  - split.
    + intros Hin. cbn in Hin.
      repeat (destruct Hin as [Hin | Hin]; [discriminate Hin |]). contradiction.
    + intros [H _]. contradiction.
Qed.

Lemma displayJSON_line W json p :
  displayJSON W json p = ([Log (displayed W json)], p, Returned tt).
Proof.
  destruct json; try reflexivity.
  unfold displayJSON, displayed. destruct (truthy (safeJSONParse W s)); reflexivity.
Qed.

Lemma request_exchange W msg p :
  request W msg p = (exchange W msg, p, Returned tt).
Proof.
  unfold request, exchange, bind, emit.
  destruct (makeAPIRequest W msg) as [err | res]; [reflexivity |].
  rewrite displayJSON_line. reflexivity.
Qed.

(** X20: [rest] with a payload file, on a route whose method takes one,
    loads the file first.  If it cannot be loaded, the handler prints
    [Unable to open] with the file name, makes no request and shuts down;
    otherwise it makes one request whose message is addressed to the route
    as typed, comes from [hydra-cli:/] and carries the loaded object, or an
    empty object when what was loaded is falsy. *)
Theorem rest_with_payload W args route p :
  parseRoute W (nth_error args 0) = Returned route ->
  route_error route = EmptyString ->
  takes_payload route = true ->
  (1 < length args)%nat ->
  run (handleRest W args) p
  = ConfigInit (nth_error args 1)
    :: match config_init W (nth_error args 1) with
       | Failed _ =>
           [Log ("Unable to open " ++ template (nth_error args 1)); ExitApp]
       | Replied object =>
           exchange W
             (createMessage W
                (envelope (nth_error args 0)
                   (if truthy object then object else JObject [])))
       end.
Proof.
  intros Hroute Hok Hmethod Hargs.
  apply Nat.ltb_lt in Hargs. unfold takes_payload in Hmethod.
  apply negb_true_iff in Hmethod.
  unfold run, handleRest. rewrite Hroute, Hok. cbn [String.eqb negb].
  rewrite Hmethod, Hargs. cbn [andb].
  unfold bind at 1. cbn [emit].
  destruct (config_init W (nth_error args 1)) as [err | object]; [reflexivity |].
  fold (envelope (nth_error args 0) (if truthy object then object else JObject [])).
  rewrite request_exchange. reflexivity.
Qed.

Lemma rest_with_payload_witness :
  let W := world (Some config_text) None (Replied []) [] None [] in
  run (handleRest W ["[post]svc:/v1/ping"; "payload.json"]) sample_program
  = ConfigInit (Some "payload.json")
    :: [Log ("Unable to open " ++ "payload.json"); ExitApp].
Proof.
  intros W.
  refine (rest_with_payload W ["[post]svc:/v1/ping"; "payload.json"]
            {| route_error := EmptyString; httpMethod := Some "post" |}
            sample_program eq_refl eq_refl eq_refl _).
  cbn. lia.
Defined.

(** X21: [rest] without a payload file makes one request for every routable
    address, whatever its method: the message is addressed to the route as
    typed, comes from [hydra-cli:/] and has an empty body; the response, or
    the error of the request, is printed and the shutdown follows. *)
Theorem rest_without_payload W args route p :
  parseRoute W (nth_error args 0) = Returned route ->
  route_error route = EmptyString ->
  (length args <= 1)%nat ->
  run (handleRest W args) p
  = exchange W (createMessage W (envelope (nth_error args 0) (JObject []))).
Proof.
  intros Hroute Hok Hargs.
  assert (Hlen : Nat.ltb 1 (length args) = false) by (apply Nat.ltb_ge; exact Hargs).
  unfold run, handleRest. rewrite Hroute, Hok. cbn [String.eqb negb].
  rewrite Hlen, andb_false_r.
  fold (envelope (nth_error args 0) (JObject [])).
  rewrite request_exchange. reflexivity.
Qed.

Lemma rest_without_payload_witness :
  let W := world (Some config_text) None (Replied []) [] None [] in
  run (handleRest W ["[post]svc:/v1/ping"]) sample_program
  = exchange W (createMessage W (envelope (Some "[post]svc:/v1/ping")
                                   (JObject []))).
Proof.
  intros W.
  refine (rest_without_payload W ["[post]svc:/v1/ping"]
            {| route_error := EmptyString; httpMethod := Some "post" |}
            sample_program eq_refl eq_refl _).
  cbn. lia.
Defined.

(** A route that [parseRoute] reports as malformed is answered with its
    error and the shutdown, with or without a payload argument; nothing is
    loaded and no request is made. *)
Lemma rest_malformed_route W args route p :
  parseRoute W (nth_error args 0) = Returned route ->
  route_error route <> EmptyString ->
  run (handleRest W args) p = [Log (route_error route); ExitApp].
Proof.
  intros Hroute Herror. apply String.eqb_neq in Herror.
  unfold run, handleRest. rewrite Hroute, Herror. reflexivity.
Qed.

Lemma rest_malformed_route_witness :
  let W := world (Some config_text) None (Replied []) [] None [] in
  run (handleRest W ["nowhere"]) sample_program
  = [Log "route is missing"; ExitApp].
Proof.
  intros W.
  refine (rest_malformed_route W ["nowhere"]
            {| route_error := "route is missing"; httpMethod := None |}
            sample_program eq_refl _).
  discriminate.
Defined.

(** ** What the commands never do *)

Section Silence.

Variable P : event -> bool.

Lemma silent_ret {A : Type} (a : A) : silent_about P (ret a).
Proof. intros p. reflexivity. Qed.

Lemma silent_throw {A : Type} (e : error) : silent_about P (@throw A e).
Proof. intros p. reflexivity. Qed.

Lemma silent_this {A : Type} (field : Program -> A) : silent_about P (this field).
Proof. intros p. reflexivity. Qed.

Lemma silent_emit (e : event) : P e = false -> silent_about P (emit e).
Proof. intros H p. cbn. now rewrite H. Qed.

Lemma silent_bind {A B : Type} (m : M A) (f : A -> M B) :
  silent_about P m -> (forall a, silent_about P (f a)) ->
  silent_about P (bind m f).
Proof.
  intros Hm Hf p. specialize (Hm p). unfold bind.
  destruct (m p) as [[t p'] [a | e]]; [| exact Hm].
  specialize (Hf a p'). destruct (f a p') as [[t' p''] r].
  unfold events_of in *. cbn [fst] in *. rewrite forallb_app, Hm, Hf. reflexivity.
Qed.

Lemma silent_js_set v k x : silent_about P (js_set v k x).
Proof. destruct v; first [apply silent_throw | apply silent_ret]. Qed.

Lemma silent_run (m : M unit) p :
  silent_about P m -> (forall e, P (Escapes e) = false) ->
  forallb (fun e => negb (P e)) (run m p) = true.
Proof.
  intros Hm Hescape. specialize (Hm p). unfold run.
  destruct (m p) as [[t p'] [[] | e]]; cbn [trace_of events_of fst] in *;
    [exact Hm |].
  rewrite forallb_app, Hm. cbn. now rewrite Hescape.
Qed.

End Silence.

Ltac silence :=
  repeat first
    [ apply silent_ret
    | apply silent_throw
    | apply silent_this
    | apply silent_js_set
    | apply silent_emit; reflexivity
    | apply silent_bind; [| intros ?]
    | match goal with
      | |- silent_about _ (match ?x with _ => _ end) => destruct x
      end ].

Lemma handleRest_offline W args :
  silent_about touches_store (handleRest W args).
Proof. unfold handleRest, request, displayJSON, exitApp. silence. Qed.

Lemma handleMessageSend_offline W args :
  silent_about touches_store (handleMessageSend W args).
Proof. unfold handleMessageSend, exitApp. silence. Qed.

Lemma handleMessageCreate_offline W args :
  silent_about touches_store (handleMessageCreate W args).
Proof. unfold handleMessageCreate, displayJSON, exitApp. silence. Qed.

Lemma handleConfigCommand_offline W args :
  silent_about touches_store (handleConfigCommand W args).
Proof. unfold handleConfigCommand. silence. Qed.

(** X22: [config], [message create], [message send] and [rest] never create
    a redis client and never issue a command to the store, whatever their
    arguments, the loaded config and the answers they get. *)
Theorem commands_that_stay_offline W args p :
  offline (run (handleConfigCommand W args) p) = true
  /\ offline (run (handleMessageCreate W args) p) = true
  /\ offline (run (handleMessageSend W args) p) = true
  /\ offline (run (handleRest W args) p) = true.
Proof.
  repeat split; apply (silent_run touches_store); try reflexivity.
  - apply handleConfigCommand_offline.
  - apply handleMessageCreate_offline.
  - apply handleMessageSend_offline.
  - apply handleRest_offline.
Qed.

(** ** How every run ends *)

Lemma finishes_exitApp : finishes exitApp.
Proof. intros p. exists []. now left. Qed.

Lemma finishes_process_exit : finishes (emit ProcessExit).
Proof. intros p. exists []. now right. Qed.

Lemma finishes_throw e : finishes (throw e).
Proof. intros p. exact I. Qed.

Lemma finishes_bind {A : Type} (m : M A) (f : A -> M unit) :
  (forall a, finishes (f a)) -> finishes (bind m f).
Proof.
  intros Hf p. unfold bind. destruct (m p) as [[t p'] [a | e]]; [| exact I].
  specialize (Hf a p'). destruct (f a p') as [[t' p''] [[] | e]]; [| exact I].
  destruct Hf as [before [-> | ->]]; exists (t ++ before)%list;
    rewrite app_assoc; [now left | now right].
Qed.

Lemma finishes_try_catch (m : M unit) (handler : error -> M unit) :
  finishes m -> (forall e, finishes (handler e)) -> finishes (try_catch m handler).
Proof.
  intros Hm Hh p. specialize (Hm p). unfold try_catch.
  destruct (m p) as [[t p'] [[] | e]]; [exact Hm |].
  specialize (Hh e p'). destruct (handler e p') as [[t' p''] [[] | e']]; [| exact I].
  destruct Hh as [before [-> | ->]]; exists (t ++ before)%list;
    rewrite app_assoc; [now left | now right].
Qed.

Ltac finish :=
  repeat first
    [ apply finishes_exitApp
    | apply finishes_process_exit
    | apply finishes_throw
    | apply finishes_try_catch; [| intros ?]
    | apply finishes_bind; intros ?
    | match goal with
      | |- finishes (match ?x with _ => _ end) => destruct x
      end ].

Lemma finishes_dispatch W command args : finishes (dispatch W command args).
Proof.
  unfold dispatch, handleConfigCommand, handleMessageCreate, handleMessageSend,
    handleNodesList, handleNodesRemove, handleRest, request, handleRoutes,
    handleHealthLog.
  cbv zeta. finish.
Qed.

Lemma finishes_closes (m : M unit) p : finishes m -> closes (run m p).
Proof.
  intros Hm. specialize (Hm p). unfold run.
  destruct (m p) as [[t p'] [[] | e]]; cbn [trace_of].
  - destruct Hm as [before [-> | ->]]; eexists; eexists; split;
      try reflexivity; auto.
  - exists t, (Escapes e). split; [reflexivity |]. right. right. now exists e.
Qed.

(** X23: every run of the program ends in one of three ways: the shutdown
    routine is scheduled, the process is exited, or an exception escapes;
    no command returns without one of them, whatever the config file, the
    arguments and the answers of the store. *)
Theorem every_run_closes W argv : closes (run (main W argv) initial).
Proof.
  destruct argv as [| command args].
  - exists [DisplayHelp], ProcessExit. split; [reflexivity | auto].
  - rewrite main_dispatch. apply finishes_closes, finishes_bind.
    intros _. apply finishes_dispatch.
Qed.

(** ** What is deleted *)

Section MoreSilence.

Variable P : event -> bool.

Lemma silent_try_catch {A : Type} (m : M A) (handler : error -> M A) :
  silent_about P m -> (forall e, silent_about P (handler e)) ->
  silent_about P (try_catch m handler).
Proof.
  intros Hm Hh p. specialize (Hm p). unfold try_catch.
  destruct (m p) as [[t p'] [a | e]]; [exact Hm |].
  specialize (Hh e p'). destruct (handler e p') as [[t' p''] r].
  unfold events_of in *. cbn [fst] in *. rewrite forallb_app, Hm, Hh. reflexivity.
Qed.

(** [bind] when what follows is only known to be silent on the results that
    [m] can return. *)
Lemma silent_bind_on {A B : Type} (Q : A -> Prop) (m : M A) (f : A -> M B) :
  silent_about P m ->
  (forall p, match m p with (_, _, Returned a) => Q a | _ => True end) ->
  (forall a, Q a -> silent_about P (f a)) ->
  silent_about P (bind m f).
Proof.
  intros Hm HQ Hf p. specialize (Hm p). specialize (HQ p). unfold bind.
  destruct (m p) as [[t p'] [a | e]]; [| exact Hm].
  specialize (Hf a HQ p'). destruct (f a p') as [[t' p''] r].
  unfold events_of in *. cbn [fst] in *. rewrite forallb_app, Hm, Hf. reflexivity.
Qed.

Lemma silent_js_get v k : silent_about P (js_get v k).
Proof. destruct v; first [apply silent_throw | apply silent_ret]. Qed.

Lemma silent_js_indexOf v needle : silent_about P (js_indexOf v needle).
Proof. destruct v; first [apply silent_throw | apply silent_ret]. Qed.

Lemma silent_quiet {A : Type} (m : M A) : quiet m -> silent_about P m.
Proof. intros Hm p. destruct (Hm p) as [r [-> _]]. reflexivity. Qed.

Lemma silent_set_configData v : silent_about P (set_configData v).
Proof. intros p. reflexivity. Qed.

Lemma silent_set_redisdb c : silent_about P (set_redisdb c).
Proof. intros p. reflexivity. Qed.

Lemma silent_store command : P command = false -> silent_about P (store command).
Proof.
  intros H p. unfold store, bind, this. destruct (redisdb p); [| reflexivity].
  cbn. now rewrite H.
Qed.

Lemma silent_inert {A : Type} (promise : Promise A) :
  inert promise -> silent_about P promise.
Proof. intros H p. now rewrite H. Qed.

Lemma silent_Promise_all {A : Type} (promises : list (Promise A)) :
  Forall inert promises -> silent_about P (Promise_all promises).
Proof.
  induction 1 as [| promise rest Hpromise Hrest IH]; [apply silent_ret |].
  cbn [Promise_all]. apply silent_bind; [apply silent_inert, Hpromise | intros ?].
  apply silent_bind; [exact IH | intros ?]. apply silent_ret.
Qed.

End MoreSilence.

Ltac hush :=
  repeat first
    [ apply silent_ret
    | apply silent_throw
    | apply silent_this
    | apply silent_js_set
    | apply silent_js_get
    | apply silent_js_indexOf
    | apply silent_set_configData
    | apply silent_set_redisdb
    | apply silent_emit; reflexivity
    | apply silent_store; reflexivity
    | apply silent_try_catch; [| intros ?]
    | apply silent_bind; [| intros ?]
    | match goal with
      | |- silent_about _ (match ?x with _ => _ end) => destruct x
      end ].

Lemma inert_settled {A : Type} (answer : reply A) : inert (settled answer).
Proof. intros p. destruct answer; reflexivity. Qed.

Lemma inert_throw {A : Type} (e : error) : inert (@throw A e).
Proof. intros p. reflexivity. Qed.

Lemma getRoutes_promise W serviceName p :
  match getRoutes W serviceName p with
  | (_, _, Returned promise) => inert promise
  | _ => True
  end.
Proof.
  unfold getRoutes, new_Promise, try_catch, bind, store, this.
  destruct p as [cfg [client |]]; cbn; [apply inert_settled | apply inert_throw].
Qed.

Lemma selectServices_promises W args keys :
  forall p,
    match selectServices W args keys p with
    | (_, _, Returned found) => Forall inert (snd found)
    | _ => True
    end.
Proof.
  induction keys as [| key rest IH]; intros p; [constructor |].
  cbn [selectServices]. unfold bind at 1.
  destruct (_ p) as [[t1 p1] [[|] | e]]; [| | exact I].
  - unfold bind at 1. pose proof (getRoutes_promise W (nth_error (split ":" key) 2) p1)
      as Hpromise.
    destruct (getRoutes W (nth_error (split ":" key) 2) p1)
      as [[t2 p2] [promise | e]]; [| exact I].
    unfold bind. specialize (IH p2).
    destruct (selectServices W args rest p2) as [[t3 p3] [found | e]]; [| exact I].
    cbn [ret snd]. constructor; assumption.
  - specialize (IH p1).
    destruct (selectServices W args rest p1) as [[t3 p3] [found | e]]; exact IH.
Qed.

Section NoDelete.

Variable P : event -> bool.
Hypothesis P_delete_only : forall e, is_delete e = false -> P e = false.

Ltac never :=
  hush;
  try (first [apply silent_emit | apply silent_store];
       apply P_delete_only; reflexivity).

Lemma redisConnect_never W : silent_about P (redisConnect W).
Proof. unfold redisConnect. never. Qed.

Lemma getKeys_never W pattern : silent_about P (getKeys W pattern).
Proof. unfold getKeys. never. Qed.

Lemma getRoutes_never W serviceName : silent_about P (getRoutes W serviceName).
Proof.
  unfold getRoutes, new_Promise. never.
Qed.

Lemma queueRanges_never instances : silent_about P (queueRanges instances).
Proof.
  induction instances as [| instance rest IH]; cbn [queueRanges]; [apply silent_ret |].
  apply silent_bind; [apply silent_emit, P_delete_only; reflexivity | intros _].
  exact IH.
Qed.

Lemma selectServices_never W args keys :
  silent_about P (selectServices W args keys).
Proof.
  induction keys as [| key rest IH]; cbn [selectServices]; [apply silent_ret |].
  apply silent_bind; [hush | intros [|]]; [| exact IH].
  apply silent_bind; [apply getRoutes_never | intros ?].
  apply silent_bind; [exact IH | intros ?]. apply silent_ret.
Qed.

Lemma loadConfig_never W : silent_about P (loadConfig W).
Proof.
  unfold loadConfig, JSON_parse_throwing. never.
Qed.

Lemma handleNodesList_never W args : silent_about P (handleNodesList W args).
Proof.
  unfold handleNodesList, exitApp.
  apply silent_bind; [apply redisConnect_never | intros _].
  apply silent_bind; [apply silent_store, P_delete_only; reflexivity | intros _].
  apply silent_bind; [| intros _; apply silent_emit, P_delete_only; reflexivity].
  destruct (hgetall_reply W (redisPreKey ++ ":nodes")) as [err | [data |]].
  - apply silent_emit, P_delete_only; reflexivity.
  - apply silent_bind; [apply silent_quiet, quiet_collectNodes | intros ?].
    apply silent_emit, P_delete_only; reflexivity.
  - apply silent_ret.
Qed.

Lemma handleHealthLog_never W args : silent_about P (handleHealthLog W args).
Proof.
  unfold handleHealthLog, exitApp.
  apply silent_bind; [apply redisConnect_never | intros _].
  apply silent_bind; [apply getKeys_never | intros instances].
  destruct (Nat.eqb (length instances) 0).
  - never.
  - apply silent_bind; [apply silent_store, P_delete_only; reflexivity | intros _].
    apply silent_bind; [apply queueRanges_never | intros _].
    never.
Qed.

Lemma handleRoutes_never W args : silent_about P (handleRoutes W args).
Proof.
  unfold handleRoutes, exitApp.
  apply silent_bind; [apply redisConnect_never | intros _].
  apply silent_try_catch; [| intros e; never].
  apply silent_bind; [apply getKeys_never | intros keys].
  apply (silent_bind_on P (fun found => Forall inert (snd found)));
    [apply selectServices_never | apply selectServices_promises |].
  intros found Hfound.
  apply silent_bind; [apply silent_Promise_all, Hfound | intros routes].
  never.
Qed.

Lemma offline_never {A : Type} (m : M A) :
  silent_about touches_store m -> silent_about P m.
Proof.
  intros Hm p. specialize (Hm p).
  induction (events_of (m p)) as [| e rest IH]; [reflexivity |].
  cbn [forallb] in *. apply andb_prop in Hm. destruct Hm as [He Hrest].
  rewrite (IH Hrest), andb_true_r. apply negb_true_iff in He.
  rewrite P_delete_only; [reflexivity |].
  destruct e; try reflexivity. discriminate He.
Qed.

End NoDelete.

Lemma other_delete_only key field e :
  is_delete e = false -> other_delete key field e = false.
Proof. destruct e; intros H; try reflexivity. discriminate H. Qed.

Lemma other_delete_same key field : other_delete key field (Hdel key field) = false.
Proof.
  cbn [other_delete]. rewrite String.eqb_refl.
  destruct field as [id |]; [rewrite String.eqb_refl |]; reflexivity.
Qed.

Lemma other_delete_inv key field k f :
  other_delete key field (Hdel k f) = false -> k = key /\ f = field.
Proof.
  cbn [other_delete]. intros H. apply negb_false_iff, andb_prop in H.
  destruct H as [Hk Hf]. apply String.eqb_eq in Hk. split; [exact Hk |].
  destruct f as [a |], field as [b |]; try discriminate Hf; [| reflexivity].
  apply String.eqb_eq in Hf. now subst.
Qed.

Lemma silent_In (P : event -> bool) (t : list event) e :
  forallb (fun e => negb (P e)) t = true -> In e t -> P e = false.
Proof.
  intros Ht Hin. rewrite forallb_forall in Ht. apply negb_true_iff, Ht, Hin.
Qed.

Lemma handleNodesRemove_deletes W args :
  silent_about (other_delete (redisPreKey ++ ":nodes") (nth_error args 1))
    (handleNodesRemove W args).
Proof.
  unfold handleNodesRemove, exitApp.
  apply silent_bind; [hush | intros _].
  apply silent_bind;
    [apply redisConnect_never, other_delete_only | intros _].
  apply silent_bind; [apply silent_store, other_delete_same | intros _].
  hush.
Qed.

Lemma no_delete (m : M unit) p key field :
  silent_about is_delete m -> ~ In (Hdel key field) (run m p).
Proof.
  intros Hm Hin.
  assert (H : is_delete (Hdel key field) = false).
  { apply (silent_In is_delete (run m p)); [| exact Hin].
    apply silent_run; [exact Hm | reflexivity]. }
  discriminate H.
Qed.

Lemma dispatch_deletes W command args p key field :
  In (Hdel key field) (run (dispatch W command args) p) ->
  command = "nodes"
  /\ nth_error args 0 = Some "remove"
  /\ key = redisPreKey ++ ":nodes"
  /\ field = nth_error args 1.
Proof.
  pose proof (@offline_never is_delete (fun e He => He) unit) as Hoffline.
  pose proof (handleNodesList_never is_delete (fun e He => He)) as Hlist.
  assert (Hunknown : forall line,
             ~ In (Hdel key field) (run (emit (Log line) ;; exitApp) p))
    by (intros line; apply no_delete; unfold exitApp; hush).
  unfold dispatch. cbv zeta.
  destruct (String.eqb command "config");
    [intros H; exfalso; revert H;
     apply no_delete, Hoffline, handleConfigCommand_offline |].
  destruct (String.eqb command "help");
    [intros H; exfalso; revert H; apply no_delete; hush |].
  destruct (String.eqb command "message").
  { intros H; exfalso; revert H.
    destruct (nth_error args 0) as [sub |]; [| apply Hunknown].
    destruct (String.eqb sub "create");
      [apply no_delete, Hoffline, handleMessageCreate_offline |].
    destruct (String.eqb sub "send");
      [apply no_delete, Hoffline, handleMessageSend_offline |].
    apply Hunknown. }
  destruct (String.eqb_spec command "nodes") as [-> | _].
  { destruct (nth_error args 0) as [sub |] eqn:Hsub.
    - destruct (String.eqb sub "list");
        [intros H; exfalso; revert H; apply no_delete, Hlist |].
      destruct (String.eqb_spec sub "remove") as [-> | _].
      + intros H. split; [reflexivity | split; [reflexivity |]].
        apply other_delete_inv.
        apply (silent_In _ (run (handleNodesRemove W args) p)); [| exact H].
        apply silent_run; [apply handleNodesRemove_deletes | reflexivity].
      + intros H; exfalso; revert H.
        destruct (Nat.eqb (length args) 0);
          [apply no_delete, Hlist | apply Hunknown].
    - intros H; exfalso; revert H.
      destruct (Nat.eqb (length args) 0);
        [apply no_delete, Hlist | apply Hunknown]. }
  intros H; exfalso; revert H.
  destruct (String.eqb command "rest");
    [apply no_delete, Hoffline, handleRest_offline |].
  destruct (String.eqb command "routes");
    [apply no_delete, handleRoutes_never; intros e He; exact He |].
  destruct (String.eqb command "healthlog");
    [apply no_delete, handleHealthLog_never; intros e He; exact He |].
  apply Hunknown.
Qed.

(** X24: the program deletes nothing from the store except on
    [nodes remove]: whenever a run issues an [hdel], the command line
    started with [nodes remove], the hash is the node hash and the field
    deleted is the argument that followed. *)
Theorem only_nodes_remove_deletes W argv key field :
  In (Hdel key field) (run (main W argv) initial) ->
  exists rest,
    argv = "nodes" :: "remove" :: rest
    /\ key = "hydra:service:nodes"
    /\ field = nth_error rest 0.
Proof.
  destruct argv as [| command args].
  - intros H. cbn in H.
    repeat (destruct H as [H | H]; [discriminate H |]). contradiction.
  - rewrite run_main.
    pose proof (loadConfig_never is_delete (fun e He => He) W initial) as Hload.
    destruct (loadConfig W initial) as [[t p] r]. cbn [events_of fst] in Hload.
    intros H. apply in_app_or in H. destruct H as [H | H].
    + pose proof (silent_In is_delete t _ Hload H) as Hno. discriminate Hno.
    + apply dispatch_deletes in H.
      destruct H as [-> [Hsub [-> ->]]].
      destruct args as [| sub rest]; [discriminate Hsub |].
      cbn [nth_error] in Hsub. inversion Hsub; subst. exists rest.
      repeat split.
Qed.

Lemma only_nodes_remove_deletes_witness :
  let W := world (Some config_text) None (Replied []) [] None [] in
  exists rest,
    ["nodes"; "remove"; "7f3a"] = "nodes" :: "remove" :: rest
    /\ "hydra:service:nodes" = "hydra:service:nodes"
    /\ Some "7f3a" = nth_error rest 0.
Proof.
  intros W.
  refine (only_nodes_remove_deletes W ["nodes"; "remove"; "7f3a"]
            "hydra:service:nodes" (Some "7f3a") _).
  vm_compute. right. right. right. left. reflexivity.
Defined.

(** ** Connecting comes first *)

Lemma guarded_true t : guarded true t = true.
Proof. induction t as [| e rest IH]; cbn [guarded orb]; [| rewrite orb_true_r]; auto. Qed.

Lemma guarded_app seen t t' :
  guarded seen (t ++ t')
  = (guarded seen t && guarded (seen || existsb opens t) t')%bool.
Proof.
  revert seen. induction t as [| e rest IH]; intros seen; cbn [app guarded existsb].
  - now rewrite orb_false_r.
  - rewrite IH, andb_assoc, orb_assoc. reflexivity.
Qed.

Lemma guarded_split seen before e after :
  guarded seen (before ++ e :: after) = true ->
  store_command e = true ->
  (seen || existsb opens before)%bool = true.
Proof.
  rewrite guarded_app. cbn [guarded]. intros H He. rewrite He in H.
  cbn [negb orb] in H. apply andb_prop in H. destruct H as [_ H].
  apply andb_prop in H. apply H.
Qed.

Lemma keeps_ret {A : Type} (a : A) : keeps_order (ret a).
Proof. intros p Hp. split; [reflexivity | intros H; contradiction]. Qed.

Lemma keeps_throw {A : Type} (e : error) : keeps_order (@throw A e).
Proof. intros p Hp. split; [reflexivity | intros H; contradiction]. Qed.

Lemma keeps_this {A : Type} (field : Program -> A) : keeps_order (this field).
Proof. intros p Hp. split; [reflexivity | intros H; contradiction]. Qed.

Lemma keeps_emit e : store_command e = false -> keeps_order (emit e).
Proof.
  intros He p Hp. cbn. rewrite He. split; [reflexivity | intros H; contradiction].
Qed.

Lemma keeps_set_configData v : keeps_order (set_configData v).
Proof. intros p Hp. split; [reflexivity | intros H; contradiction]. Qed.

Lemma keeps_js_get v k : keeps_order (js_get v k).
Proof. destruct v; first [apply keeps_throw | apply keeps_ret]. Qed.

Lemma keeps_js_set v k x : keeps_order (js_set v k x).
Proof. destruct v; first [apply keeps_throw | apply keeps_ret]. Qed.

Lemma keeps_blocked {A : Type} (m : M A) : blocked m -> keeps_order m.
Proof.
  intros Hm p Hp. destruct (Hm p Hp) as [e ->].
  split; [reflexivity | intros H; contradiction].
Qed.

Lemma blocked_store command : blocked (store command).
Proof.
  intros p Hp. exists TypeError. unfold store, bind, this. rewrite Hp. reflexivity.
Qed.

Lemma blocked_bind {A B : Type} (m : M A) (f : A -> M B) :
  blocked m -> blocked (bind m f).
Proof.
  intros Hm p Hp. destruct (Hm p Hp) as [e H]. exists e.
  apply (bind_thrown _ _ _ _ _ _ H).
Qed.

Lemma keeps_bind {A B : Type} (m : M A) (f : A -> M B) :
  keeps_order m -> (forall a, keeps_order (f a)) -> keeps_order (bind m f).
Proof.
  intros Hm Hf p Hp. specialize (Hm p Hp). unfold bind.
  destruct (m p) as [[t p'] [a | e]]; [| exact Hm].
  destruct Hm as [Ht Hopen]. specialize (Hf a p').
  destruct (f a p') as [[t' p''] r].
  rewrite guarded_app, existsb_app, Ht. cbn [andb orb].
  destruct (existsb opens t) eqn:Hopened.
  - split; [apply guarded_true | reflexivity].
  - destruct (redisdb p') as [client |] eqn:Hp';
      [assert (H : false = true) by (apply Hopen; discriminate); discriminate H |].
    destruct (Hf eq_refl) as [Ht' Hopen']. split; assumption.
Qed.

Lemma keeps_try_catch {A : Type} (m : M A) (handler : error -> M A) :
  keeps_order m -> (forall e, keeps_order (handler e)) ->
  keeps_order (try_catch m handler).
Proof.
  intros Hm Hh p Hp. specialize (Hm p Hp). unfold try_catch.
  destruct (m p) as [[t p'] [a | e]]; [exact Hm |].
  destruct Hm as [Ht Hopen]. specialize (Hh e p').
  destruct (handler e p') as [[t' p''] r].
  rewrite guarded_app, existsb_app, Ht. cbn [andb orb].
  destruct (existsb opens t) eqn:Hopened.
  - split; [apply guarded_true | reflexivity].
  - destruct (redisdb p') as [client |] eqn:Hp';
      [assert (H : false = true) by (apply Hopen; discriminate); discriminate H |].
    destruct (Hh eq_refl) as [Ht' Hopen']. split; assumption.
Qed.

Lemma keeps_redisConnect W : keeps_order (redisConnect W).
Proof.
  intros p Hp. destruct (loaded p) eqn:Hcfg.
  - rewrite (redisConnect_loaded W p Hcfg). split; reflexivity.
  - rewrite (redisConnect_unloaded W p Hcfg).
    split; [reflexivity | intros H; contradiction].
Qed.

Ltac order :=
  repeat first
    [ apply keeps_ret
    | apply keeps_throw
    | apply keeps_this
    | apply keeps_js_get
    | apply keeps_js_set
    | apply keeps_set_configData
    | apply keeps_redisConnect
    | apply keeps_emit; reflexivity
    | apply keeps_blocked, blocked_bind, blocked_store
    | apply keeps_blocked, blocked_bind, blocked_bind, blocked_store
    | apply keeps_try_catch; [| intros ?]
    | apply keeps_bind; [| intros ?]
    | match goal with
      | |- keeps_order (match ?x with _ => _ end) => destruct x
      end ].

Lemma keeps_dispatch W command args : keeps_order (dispatch W command args).
Proof.
  unfold dispatch, handleConfigCommand, handleMessageCreate, handleMessageSend,
    handleNodesList, handleNodesRemove, handleRest, request, displayJSON,
    handleRoutes, handleHealthLog, getKeys, exitApp.
  cbv zeta. order.
Qed.

Lemma keeps_loadConfig W : keeps_order (loadConfig W).
Proof. unfold loadConfig, JSON_parse_throwing. order. Qed.

(** X25: no command reaches the store before the client was created: in
    every run, whatever precedes a [keys], [smembers], [hgetall], [hdel],
    [multi], [lrange] or [exec] contains the call of [createClient]. *)
Theorem store_commands_follow_the_connection W argv before e after :
  run (main W argv) initial = (before ++ e :: after)%list ->
  store_command e = true ->
  existsb opens before = true.
Proof.
  intros Hrun He.
  assert (Hkeeps : keeps_order (main W argv)).
  { destruct argv as [| command args].
    - cbn [main]. order.
    - rewrite main_dispatch.
      apply keeps_bind; [apply keeps_loadConfig | intros _; apply keeps_dispatch]. }
  specialize (Hkeeps initial eq_refl). unfold run in Hrun.
  destruct (main W argv initial) as [[t p] r]. destruct Hkeeps as [Ht _].
  assert (Hguarded : guarded false (before ++ e :: after) = true).
  { rewrite <- Hrun. destruct r as [[] | err]; cbn [trace_of]; [exact Ht |].
    rewrite guarded_app, Ht. reflexivity. }
  exact (guarded_split false before e after Hguarded He).
Qed.

Lemma store_commands_follow_the_connection_witness :
  let W := world (Some config_text) None (Replied []) [] None [] in
  existsb opens
    [HydraInit (hydra_conf config_value);
     CreateClient (JString "6379") (JString "127.0.0.1"); Select (JString "15")]
  = true.
Proof.
  intros W.
  exact (store_commands_follow_the_connection W ["healthlog"; "auth"]
           [HydraInit (hydra_conf config_value);
            CreateClient (JString "6379") (JString "127.0.0.1");
            Select (JString "15")]
           (Keys "*:auth:*:health:log") [Log "[]"; ExitApp] eq_refl eq_refl).
Defined.
